(** * kb-sync-agent: the chunking engine of [uploader.py]

    A shallow embedding of [ArticleUploader._split_by_heading],
    [_split_into_paragraphs] and [_create_chunks], and the properties of
    the chunker that the specification states.

    Conventions of the embedding.
    - A Python [str] is a list of Unicode code points ([N]).  [py "..."]
      turns a literal into such a list.
    - Python integers that count tokens or index chunks are [Z]; list
      positions and lengths are [nat].
    - The tokenizer ([tiktoken], an external library) is a parameter
      [encode], a total function; [_count_tokens] is the length of its
      output, as in the source.
    - The four module constants are the fields of a [ChunkConfig];
      [module_config] holds the values written in [uploader.py]. *)

From Stdlib Require Import String Ascii.
From Stdlib Require Import List ZArith NArith Lia Bool.
Import ListNotations.

Open Scope Z_scope.

(** ** Python strings *)

Definition char := N.
Definition str := list char.

Definition py (s : string) : str :=
  map N_of_ascii (list_ascii_of_string s).

Definition NL : char := 10%N.
Definition SP : char := 32%N.
Definition HASH : char := 35%N.

(** [str.isspace] for one code point.  The same set is what [\s] matches
    in a [str] pattern of [re] and what [str.strip] and [str.split]
    remove. *)
Definition isspace (c : char) : bool :=
  ((9 <=? c) && (c <=? 13) || (28 <=? c) && (c <=? 32)
   || (c =? 133) || (c =? 160) || (c =? 5760)
   || (8192 <=? c) && (c <=? 8202)
   || (c =? 8232) || (c =? 8233) || (c =? 8239) || (c =? 8287)
   || (c =? 12288))%N.

(** Python truthiness of a list or a string: non-empty. *)
Definition truthy {A : Type} (l : list A) : bool :=
  match l with [] => false | _ :: _ => true end.

Fixpoint take_while {A : Type} (p : A -> bool) (l : list A) : list A :=
  match l with
  | [] => []
  | x :: l' => if p x then x :: take_while p l' else []
  end.

Fixpoint drop_while {A : Type} (p : A -> bool) (l : list A) : list A :=
  match l with
  | [] => []
  | x :: l' => if p x then drop_while p l' else l
  end.

Definition lstrip (s : str) : str := drop_while isspace s.
Definition rstrip (s : str) : str := rev (drop_while isspace (rev s)).
(** [s.strip()] *)
Definition strip (s : str) : str := rstrip (lstrip s).

(** [sep.join(l)] *)
Fixpoint join (sep : str) (l : list str) : str :=
  match l with
  | [] => []
  | x :: rest =>
      match rest with
      | [] => x
      | _ :: _ => x ++ sep ++ join sep rest
      end
  end.

(** Puts a character in front of the first piece of a split. *)
Definition cons_first (c : char) (pieces : list str) : list str :=
  match pieces with
  | [] => [[c]]
  | p :: ps => (c :: p) :: ps
  end.

(** [s.split("\n")]: split at every occurrence of one character. *)
Fixpoint split_char (sep : char) (s : str) : list str :=
  match s with
  | [] => [[]]
  | c :: s' =>
      if (c =? sep)%N then [] :: split_char sep s'
      else cons_first c (split_char sep s')
  end.

(** [s.split()]: the maximal runs of non-whitespace characters.  [cur]
    holds the current word, reversed. *)
Fixpoint split_ws_aux (cur : str) (s : str) : list str :=
  match s with
  | [] => if truthy cur then [rev cur] else []
  | c :: s' =>
      if isspace c
      then (if truthy cur then rev cur :: split_ws_aux [] s'
            else split_ws_aux [] s')
      else split_ws_aux (c :: cur) s'
  end.

Definition split_ws (s : str) : list str := split_ws_aux [] s.

(** [l[start:]] with Python's treatment of a negative or too large
    [start]. *)
Definition slice_from {A : Type} (start : Z) (l : list A) : list A :=
  let n := Z.of_nat (length l) in
  let i := if start <? 0 then Z.max 0 (n + start) else Z.min start n in
  skipn (Z.to_nat i) l.

(** ** Regular expressions of the source

    [re.split(pattern, s)] for a pattern that cannot match the empty
    string: [sep_len] gives, for the text that starts at the current
    position, the length of the match that starts there (if any).  The
    scan is leftmost-first; after a match it resumes behind the match
    ([skip] counts the characters of the match still to be passed
    over). *)
Fixpoint re_split_aux (sep_len : str -> option nat) (skip : nat) (s : str)
  : list str :=
  match s with
  | [] => [[]]
  | c :: s' =>
      match skip with
      | S k => re_split_aux sep_len k s'
      | O =>
          match sep_len s with
          | Some (S k) => [] :: re_split_aux sep_len k s'
          | _ => cons_first c (re_split_aux sep_len O s')
          end
      end
  end.

Definition re_split (sep_len : str -> option nat) (s : str) : list str :=
  re_split_aux sep_len O s.

(** Position just behind the last [c] of [l], if [c] occurs. *)
Fixpoint after_last (c : char) (l : str) : option nat :=
  match l with
  | [] => None
  | x :: l' =>
      match after_last c l' with
      | Some k => Some (S k)
      | None => if (x =? c)%N then Some 1%nat else None
      end
  end.

(** The pattern [\n\s*\n] at the start of [s].  [\s*] is greedy and
    [\n] is itself whitespace, so the match runs to the last newline of
    the whitespace run that follows the first newline. *)
Definition para_sep_len (s : str) : option nat :=
  match s with
  | c :: rest =>
      if (c =? NL)%N then
        match after_last NL (take_while isspace rest) with
        | Some k => Some (S k)
        | None => None
        end
      else None
  | [] => None
  end.

Definition is_sentence_end (c : char) : bool :=
  ((c =? 46) || (c =? 33) || (c =? 63))%N.

(** The pattern [[.!?]+\s+] at the start of [s]: the whole run of
    sentence punctuation, which must be followed by whitespace, and the
    whole run of that whitespace. *)
Definition sentence_sep_len (s : str) : option nat :=
  let p := take_while is_sentence_end s in
  let w := take_while isspace (drop_while is_sentence_end s) in
  if truthy p && truthy w then Some (length p + length w)%nat else None.

(** [re.match(r"^(##|###)\s+(.+)$", line)] for a [line] without newline
    (every line comes from [markdown.split("\n")]).  [rest] is the text
    behind the [#] signs: [\s+] needs one whitespace character at least
    and takes the whole run, unless nothing would be left for [(.+)]; it
    then gives back its last character.  The result is group 2. *)
Definition heading_tail (rest : str) : option str :=
  let w := take_while isspace rest in
  let t := drop_while isspace rest in
  match w with
  | [] => None
  | _ :: w' =>
      match t with
      | _ :: _ => Some t
      | [] => match w' with
              | [] => None
              | _ :: _ => Some [last w SP]
              end
      end
  end.

(** Groups 1 and 2 of the match; the alternative [##] is tried first. *)
Definition heading_match (line : str) : option (str * str) :=
  match line with
  | a :: b :: rest =>
      if ((a =? HASH) && (b =? HASH))%N then
        match heading_tail rest with
        | Some g2 => Some ([HASH; HASH], g2)
        | None =>
            match rest with
            | c :: rest' =>
                if (c =? HASH)%N then
                  match heading_tail rest' with
                  | Some g2 => Some ([HASH; HASH; HASH], g2)
                  | None => None
                  end
                else None
            | [] => None
            end
        end
      else None
  | _ => None
  end.

(** ** Sections *)

(** The dict of a section.  The initial section of the source has no
    ["heading_level"] key. *)
Record Section := mkSection {
  heading : str;
  heading_level : option Z;
  content : str
}.

Definition empty_section : Section :=
  {| heading := []; heading_level := None; content := [] |}.

(** One iteration of the loop over the lines in [_split_by_heading]. *)
Definition heading_step (acc : list Section * Section) (line : str)
  : list Section * Section :=
  let '(sections, current_section) := acc in
  match heading_match line with
  | Some (g1, g2) =>
      (if truthy (strip (content current_section))
       then sections ++ [current_section] else sections,
       {| heading := strip g2;
          heading_level := Some (Z.of_nat (length g1));
          content := line ++ [NL] |})
  | None =>
      (sections,
       {| heading := heading current_section;
          heading_level := heading_level current_section;
          content := content current_section ++ line ++ [NL] |})
  end.

Definition _split_by_heading (markdown : str) : list Section :=
  let '(sections, current_section) :=
    fold_left heading_step (split_char NL markdown) ([], empty_section) in
  if truthy (strip (content current_section))
  then sections ++ [current_section] else sections.

(** ** Paragraphs *)

Definition _split_into_paragraphs (text : str) : list str :=
  map strip
    (filter (fun p => truthy (strip p)) (re_split para_sep_len text)).

(** The sentence units of an oversized paragraph. *)
Definition split_sentences (para : str) : list str :=
  re_split sentence_sep_len para.

(** ** Chunks and the chunker *)

(** The thresholds [TARGET_TOKENS], [OVERLAP_TOKENS], [MIN_CHUNK_TOKENS]
    and [MAX_CHUNK_TOKENS], which the source reads from module level. *)
Record ChunkConfig := mkConfig {
  TARGET_TOKENS : Z;
  OVERLAP_TOKENS : Z;
  MIN_CHUNK_TOKENS : Z;
  MAX_CHUNK_TOKENS : Z
}.

(** The values of [uploader.py]. *)
Definition module_config : ChunkConfig :=
  {| TARGET_TOKENS := 600;
     OVERLAP_TOKENS := 100;
     MIN_CHUNK_TOKENS := 200;
     MAX_CHUNK_TOKENS := 800 |}.


(** The dict of a chunk. *)
Record Chunk := mkChunk {
  text : str;
  tokens : Z;
  chunk_heading : str;
  chunk_index : Z;
  article_slug : str;
  source_url : str
}.

(** The local state of the loop over one section, together with the
    list [chunks] that the whole call appends to. *)
Record Builder := mkBuilder {
  chunks : list Chunk;
  current_chunk : list str;
  current_tokens : Z;
  index : Z
}.

Definition PARA_SEP : str := [NL; NL].

(** [l[-n:]] for a positive literal [n]. *)
Definition last_n {A : Type} (n : nat) (l : list A) : list A :=
  skipn (length l - n) l.

Section Chunker.

(** [self.encoding.encode] *)
Variable token : Type.
Variable encode : str -> list token.
Variable cfg : ChunkConfig.

Definition _count_tokens (s : str) : Z := Z.of_nat (length (encode s)).

(** The lines

      overlap_words = overlap_text.split()
      target_words = int(OVERLAP_TOKENS * len(overlap_words) / overlap_tokens)
      overlap_text = " ".join(overlap_words[-target_words:])

    under their guard [overlap_tokens > OVERLAP_TOKENS].  The quotient
    of the source is a float that [int] truncates; it is the integer
    quotient as long as the product stays below 2^53, which any text
    that fits in memory guarantees.  The divisor is positive under the
    guard when [OVERLAP_TOKENS] is not negative. *)
Definition target_words (overlap_text : str) : Z :=
  Z.quot (OVERLAP_TOKENS cfg * Z.of_nat (length (split_ws overlap_text)))
         (_count_tokens overlap_text).

Definition trim_overlap (overlap_text : str) : str :=
  if _count_tokens overlap_text >? OVERLAP_TOKENS cfg then
    join [SP] (slice_from (- target_words overlap_text)
                          (split_ws overlap_text))
  else overlap_text.

Section OneSection.

Variable section_heading : str.
Variable slug url : str.

(** [chunks.append({...}); chunk_index += 1] *)
Definition emit (b : Builder) : Builder :=
  {| chunks := chunks b ++
               [ {| text := join PARA_SEP (current_chunk b);
                    tokens := current_tokens b;
                    chunk_heading := section_heading;
                    chunk_index := index b;
                    article_slug := slug;
                    source_url := url |} ];
     current_chunk := current_chunk b;
     current_tokens := current_tokens b;
     index := index b + 1 |}.

(** Opens the next buffer: the overlap text, when it is not empty,
    and the unit; the running total is counted on the joined text. *)
Definition reopen (b : Builder) (overlap_text unit : str) : Builder :=
  let fresh := if truthy overlap_text then [overlap_text; unit]
               else [unit] in
  {| chunks := chunks b;
     current_chunk := fresh;
     current_tokens := _count_tokens (join PARA_SEP fresh);
     index := index b |}.

(** [current_chunk.append(unit); current_tokens += unit_tokens] *)
Definition append_unit (b : Builder) (unit : str) : Builder :=
  {| chunks := chunks b;
     current_chunk := current_chunk b ++ [unit];
     current_tokens := current_tokens b + _count_tokens unit;
     index := index b |}.

(** Lines 110-122: the buffer is saved before an oversized paragraph
    is split. *)
Definition flush_before_split (b : Builder) : Builder :=
  if truthy (current_chunk b) then
    let b' := emit b in
    {| chunks := chunks b';
       current_chunk := [];
       current_tokens := 0;
       index := index b' |}
  else b.

(** Line 141: the overlap source of the sentence loop. *)
Definition sentence_overlap_source (cur : list str) : str :=
  if (2 <=? length cur)%nat then join PARA_SEP (last_n 2 cur)
  else if truthy cur then last cur [] else [].

(** Lines 127-153: one sentence of an oversized paragraph. *)
Definition sentence_step (b : Builder) (sent : str) : Builder :=
  let sent_tokens := _count_tokens sent in
  if (current_tokens b + sent_tokens >? TARGET_TOKENS cfg)
     && truthy (current_chunk b)
  then
    let b' := emit b in
    reopen b' (trim_overlap (sentence_overlap_source (current_chunk b)))
           sent
  else append_unit b sent.

(** Line 171: the overlap source of the paragraph loop. *)
Definition paragraph_overlap_source (cur : list str) : str :=
  if truthy cur then join PARA_SEP (last_n 1 cur) else [].

(** Lines 104-183: one paragraph. *)
Definition paragraph_step (b : Builder) (para : str) : Builder :=
  let para_tokens := _count_tokens para in
  if para_tokens >? MAX_CHUNK_TOKENS cfg then
    fold_left sentence_step (split_sentences para)
              (flush_before_split b)
  else if (current_tokens b + para_tokens >? TARGET_TOKENS cfg)
          && truthy (current_chunk b)
  then
    let b' := if current_tokens b >=? MIN_CHUNK_TOKENS cfg
              then emit b else b in
    reopen b' (trim_overlap (paragraph_overlap_source (current_chunk b)))
           para
  else append_unit b para.

(** Lines 185-195: the remaining buffer. *)
Definition final_flush (b : Builder) : Builder :=
  if truthy (current_chunk b)
     && (current_tokens b >=? MIN_CHUNK_TOKENS cfg)
  then emit b else b.

(** The body of the loop over the sections, for the paragraphs of
    one section; [acc] is the list [chunks] so far. *)
Definition section_loop (acc : list Chunk) (paragraphs : list str)
  : list Chunk :=
  chunks
    (final_flush
       (fold_left paragraph_step paragraphs
          {| chunks := acc; current_chunk := [];
             current_tokens := 0; index := 0 |})).

End OneSection.

Definition process_section (slug url : str) (acc : list Chunk)
           (section : Section) : list Chunk :=
  section_loop (heading section) slug url acc
               (_split_into_paragraphs (content section)).

(** Lines 87-91: the sections that the loop runs over. *)
Definition sections_of (markdown : str) : list Section :=
  let sections := _split_by_heading markdown in
  if truthy sections then sections
  else [ {| heading := []; heading_level := None; content := markdown |} ].

Definition _create_chunks (markdown slug url : str) : list Chunk :=
  fold_left (process_section slug url) (sections_of markdown) [].

(** The chunks that one section adds. *)
Definition section_chunks (slug url : str) (section : Section)
  : list Chunk :=
  process_section slug url [] section.

End Chunker.

Arguments _count_tokens {token} encode s.
Arguments target_words {token} encode cfg overlap_text.
Arguments trim_overlap {token} encode cfg overlap_text.
Arguments reopen {token} encode b overlap_text unit.
Arguments append_unit {token} encode b unit.
Arguments sentence_step {token} encode cfg section_heading slug url b sent.
Arguments paragraph_step {token} encode cfg section_heading slug url b para.
Arguments section_loop {token} encode cfg section_heading slug url acc paragraphs.
Arguments process_section {token} encode cfg slug url acc section.
Arguments _create_chunks {token} encode cfg markdown slug url.
Arguments section_chunks {token} encode cfg slug url section.

(** ** Token counters used in examples *)

(** One token per character. *)
Definition char_encode (s : str) : list str := map (fun c => [c]) s.

(** One token per four characters (the last token may be shorter), the
    usual rough estimate of a sub-word encoding. *)
Fixpoint quad_encode_aux (n : nat) (cur : str) (s : str) : list str :=
  match s with
  | [] => if truthy cur then [rev cur] else []
  | c :: s' =>
      match n with
      | O => rev (c :: cur) :: quad_encode_aux 3 [] s'
      | S k => quad_encode_aux k (c :: cur) s'
      end
  end.

Definition quad_encode (s : str) : list str := quad_encode_aux 3 [] s.

(** One token per whitespace-separated word. *)
Definition word_encode (s : str) : list str := split_ws s.

(** [s * n] *)
Fixpoint repeat_str (s : str) (n : nat) : str :=
  match n with
  | O => []
  | S k => s ++ repeat_str s k
  end.

(** ** Invariants of the section loop *)

(** [b'] differs from [b] by chunks added at the end. *)
Definition grows (b b' : Builder) : Prop :=
  exists added, chunks b' = chunks b ++ added.

Definition with_prefix (acc : list Chunk) (b : Builder) : Builder :=
  {| chunks := acc ++ chunks b;
     current_chunk := current_chunk b;
     current_tokens := current_tokens b;
     index := index b |}.

(** The chunks so far are numbered 0, 1, 2, ... and [index] is the next
    number. *)
Definition indexed (b : Builder) : Prop :=
  index b = Z.of_nat (length (chunks b))
  /\ map chunk_index (chunks b)
     = map Z.of_nat (seq 0 (length (chunks b))).

Section Invariants.

Variable token : Type.
Variable encode : str -> list token.
Variable cfg : ChunkConfig.

(** A buffer that was just opened carries the token count of its
    joined text; a buffer that has grown since stays within the
    target.  An empty buffer has total 0. *)
Definition buffer_fresh_or_small (b : Builder) : Prop :=
  (current_chunk b = [] /\ current_tokens b = 0)
  \/ (current_chunk b <> []
      /\ (current_tokens b <= TARGET_TOKENS cfg
          \/ current_tokens b = _count_tokens encode (join PARA_SEP (current_chunk b)))).

Definition chunk_fresh_or_small (c : Chunk) : Prop :=
  tokens c <= TARGET_TOKENS cfg \/ tokens c = _count_tokens encode (text c).

Definition fresh_or_small (b : Builder) : Prop :=
  Forall chunk_fresh_or_small (chunks b) /\ buffer_fresh_or_small b.

End Invariants.

Arguments buffer_fresh_or_small {token} encode cfg b.
Arguments chunk_fresh_or_small {token} encode cfg c.
Arguments fresh_or_small {token} encode cfg b.

(** ** Notions used in the statements *)

(** The running total that the paragraphs of a section add up to. *)
Definition paragraph_total {token : Type} (encode : str -> list token)
           (paragraphs : list str) : Z :=
  fold_right (fun p acc => _count_tokens encode p + acc) 0 paragraphs.

(** No line of the document is a level-2 or level-3 heading. *)
Definition no_heading_marker (markdown : str) : Prop :=
  Forall (fun line => heading_match line = None) (split_char NL markdown).

(** No paragraph of any section exceeds [MAX_CHUNK_TOKENS], so that the
    sentence fallback is never entered. *)
Definition no_oversized_paragraph {token : Type} (encode : str -> list token)
           (cfg : ChunkConfig) (markdown : str) : bool :=
  forallb
    (fun section =>
       forallb (fun p => _count_tokens encode p <=? MAX_CHUNK_TOKENS cfg)
               (_split_into_paragraphs (content section)))
    (sections_of markdown).

(** [unit] is a sentence unit of the document: a piece of a paragraph
    that exceeds [MAX_CHUNK_TOKENS]. *)
Definition sentence_unit_of {token : Type} (encode : str -> list token)
           (cfg : ChunkConfig) (markdown unit : str) : Prop :=
  exists section para,
    In section (sections_of markdown)
    /\ In para (_split_into_paragraphs (content section))
    /\ _count_tokens encode para > MAX_CHUNK_TOKENS cfg
    /\ In unit (split_sentences para).

(** The exception that the specification documents: the chunk is a
    single sentence unit whose own token count exceeds the maximum. *)
Definition oversized_sentence_exception {token : Type}
           (encode : str -> list token) (cfg : ChunkConfig)
           (markdown : str) (c : Chunk) : Prop :=
  sentence_unit_of encode cfg markdown (text c)
  /\ _count_tokens encode (text c) > MAX_CHUNK_TOKENS cfg.

(** The bounds as the specification states them. *)
Definition bounds_as_stated {token : Type} (encode : str -> list token)
           (cfg : ChunkConfig) (markdown : str) : Prop :=
  forall c,
    In c (_create_chunks encode cfg markdown [] []) ->
    oversized_sentence_exception encode cfg markdown c
    \/ MIN_CHUNK_TOKENS cfg <= tokens c <= MAX_CHUNK_TOKENS cfg.



(** ** The buffers of a section *)

Section Buffers.

Variable token : Type.
Variable encode : str -> list token.
Variable cfg : ChunkConfig.

(** The paragraphs of the section. *)
Variable paragraphs : list str.

(** A paragraph that the paragraph loop packs as it is. *)
Definition paragraph_unit (u : str) : Prop :=
  In u paragraphs /\ _count_tokens encode u <= MAX_CHUNK_TOKENS cfg.

(** A sentence unit: a piece of a paragraph above the maximum. *)
Definition sentence_unit (u : str) : Prop :=
  exists para,
    In para paragraphs
    /\ _count_tokens encode para > MAX_CHUNK_TOKENS cfg
    /\ In u (split_sentences para).

(** The buffers that the loop over a section can hold, with their running
    totals.  A buffer is opened by one unit, counted alone, or by a
    non-empty overlap text and one unit, counted on their joined text;
    the overlap text is the trimmed overlap source of a buffer of the
    section (its last unit when the new unit is a paragraph; its last
    two units, or its only one, when the new unit is a sentence unit).
    A buffer grows by one unit and the token count of that unit as long
    as the total stays within the target. *)
Inductive buffer : list str -> Z -> Prop :=
| buffer_opened (units : list str) (total : Z) :
    opened units total -> buffer units total
| buffer_grown (units : list str) (total : Z) (u : str) :
    buffer units total ->
    paragraph_unit u \/ sentence_unit u ->
    total + _count_tokens encode u <= TARGET_TOKENS cfg ->
    buffer (units ++ [u]) (total + _count_tokens encode u)
with opened : list str -> Z -> Prop :=
| opened_alone (u : str) :
    paragraph_unit u \/ sentence_unit u ->
    opened [u] (_count_tokens encode u)
| opened_behind_sentences (units : list str) (total : Z) (u : str) :
    buffer units total ->
    sentence_unit u ->
    trim_overlap encode cfg (sentence_overlap_source units) <> [] ->
    opened [trim_overlap encode cfg (sentence_overlap_source units); u]
           (_count_tokens encode
              (join PARA_SEP
                 [trim_overlap encode cfg (sentence_overlap_source units);
                  u]))
| opened_behind_paragraphs (units : list str) (total : Z) (u : str) :
    buffer units total ->
    paragraph_unit u ->
    trim_overlap encode cfg (paragraph_overlap_source units) <> [] ->
    opened [trim_overlap encode cfg (paragraph_overlap_source units); u]
           (_count_tokens encode
              (join PARA_SEP
                 [trim_overlap encode cfg (paragraph_overlap_source units);
                  u])).

(** The chunk is a buffer of the section: its text is the units joined
    by blank lines and its [tokens] is the running total. *)
Definition chunk_of_buffer (c : Chunk) (units : list str) : Prop :=
  text c = join PARA_SEP units /\ buffer units (tokens c).

(** The state of the loop: every chunk so far is a buffer of the
    section, and the current buffer is empty with total 0 or one of
    them. *)
Definition built (b : Builder) : Prop :=
  Forall (fun c => exists units, chunk_of_buffer c units) (chunks b)
  /\ ((current_chunk b = [] /\ current_tokens b = 0)
      \/ buffer (current_chunk b) (current_tokens b)).

(** No paragraph of the section exceeds [MAX_CHUNK_TOKENS]. *)
Definition within_max : bool :=
  forallb (fun p => _count_tokens encode p <=? MAX_CHUNK_TOKENS cfg)
          paragraphs.

(** The chunk is the trimmed overlap of a paragraph [p], a blank line and
    the paragraph [q] that follows [p] in the section, counted on that
    text. *)
Definition overlap_seam (c : Chunk) : Prop :=
  exists before p q after,
    paragraphs = before ++ p :: q :: after
    /\ trim_overlap encode cfg p <> []
    /\ text c = trim_overlap encode cfg p ++ PARA_SEP ++ q
    /\ tokens c = _count_tokens encode (text c).

(** The bounds of a chunk of a section without an oversized
    paragraph. *)
Definition chunk_within_bounds (c : Chunk) : Prop :=
  MIN_CHUNK_TOKENS cfg <= tokens c
  /\ (tokens c <= MAX_CHUNK_TOKENS cfg \/ overlap_seam c).

(** The state of the paragraph loop of such a section when the
    paragraphs [done] have been read: the buffer is empty, or it ends
    with the last paragraph read and either is within the maximum or is
    the trimmed overlap of the paragraph before and that last
    paragraph. *)
Definition buffer_at (done : list str) (b : Builder) : Prop :=
  (current_chunk b = [] /\ current_tokens b = 0)
  \/ exists front p held,
       done = front ++ [p]
       /\ current_chunk b = held ++ [p]
       /\ (current_tokens b <= MAX_CHUNK_TOKENS cfg
           \/ exists front' p0,
                front = front' ++ [p0]
                /\ trim_overlap encode cfg p0 <> []
                /\ current_chunk b = [trim_overlap encode cfg p0; p]
                /\ current_tokens b
                   = _count_tokens encode
                       (join PARA_SEP [trim_overlap encode cfg p0; p])).

End Buffers.

Arguments paragraph_unit {token} encode cfg paragraphs u.
Arguments sentence_unit {token} encode cfg paragraphs u.
Arguments buffer {token} encode cfg paragraphs _ _.
Arguments opened {token} encode cfg paragraphs _ _.
Arguments chunk_of_buffer {token} encode cfg paragraphs c units.
Arguments built {token} encode cfg paragraphs b.
Arguments within_max {token} encode cfg paragraphs.
Arguments overlap_seam {token} encode cfg paragraphs c.
Arguments chunk_within_bounds {token} encode cfg paragraphs c.
Arguments buffer_at {token} encode cfg done b.

(** ** Inputs of the examples *)

(** Two paragraphs within the maximum: a hundred four-letter words (499
    characters) and one word of 750 characters. *)
Definition doc_overlap_exceeds : str :=
  join [SP] (repeat (py "aaaa") 100) ++ PARA_SEP ++ repeat_str (py "b") 750.

(** A paragraph of 50 characters, then a paragraph of three sentences of
    300 characters each. *)
Definition small_paragraph : str := repeat_str (py "a") 50.
Definition long_sentence : str := repeat_str (py "x") 300.
Definition doc_small_then_oversized : str :=
  small_paragraph ++ PARA_SEP
  ++ long_sentence ++ py ". " ++ long_sentence ++ py ". " ++ long_sentence.



(** One paragraph: a sentence of 10 characters, then a sentence of 801
    characters. *)
Definition short_sentence : str := repeat_str (py "a") 10.
Definition huge_sentence : str := repeat_str (py "b") 801.
Definition doc_oversized_second_sentence : str :=
  short_sentence ++ py ". " ++ huge_sentence.


(** A paragraph that is one word of 300 characters, then one of 400. *)
Definition one_word : str := repeat_str (py "a") 300.
Definition next_paragraph : str := repeat_str (py "b") 400.
Definition doc_one_word_overlap : str :=
  one_word ++ PARA_SEP ++ next_paragraph.

(** A paragraph of forty five-letter words (239 characters), then the
    paragraph of 400 characters. *)
Definition forty_words : str := join [SP] (repeat (py "words") 40).
Definition doc_forty_words_overlap : str :=
  forty_words ++ PARA_SEP ++ next_paragraph.

(** Two hundred paragraphs of one letter. *)
Definition doc_many_short_paragraphs : str :=
  join PARA_SEP (repeat (py "a") 200).

(** Two words of 150 characters on two lines of one paragraph. *)
Definition two_lines : str :=
  repeat_str (py "x") 150 ++ [NL] ++ repeat_str (py "y") 150.
Definition two_lines_joined : str :=
  repeat_str (py "x") 150 ++ [SP] ++ repeat_str (py "y") 150.
Definition doc_two_lines_overlap : str :=
  two_lines ++ PARA_SEP ++ next_paragraph.

(** ** [scraper.py]: normalisation of markdown *)

Definition CR : char := 13%N.

(** [re.sub(pattern, repl, s)] for a pattern that cannot match the empty
    string, in the manner of [re_split_aux]: a match is replaced by
    [repl] and the scan resumes behind it. *)
Fixpoint re_sub_aux (sep_len : str -> option nat) (repl : str)
         (skip : nat) (s : str) : str :=
  match s with
  | [] => []
  | c :: s' =>
      match skip with
      | S k => re_sub_aux sep_len repl k s'
      | O =>
          match sep_len s with
          | Some (S k) => repl ++ re_sub_aux sep_len repl k s'
          | _ => c :: re_sub_aux sep_len repl O s'
          end
      end
  end.

Definition re_sub (sep_len : str -> option nat) (repl s : str) : str :=
  re_sub_aux sep_len repl O s.

Definition is_newline (c : char) : bool := (c =? NL)%N.

(** The pattern [\n{3,}] at the start of [s]: the whole run of newlines,
    when it has three of them or more. *)
Definition newline_run_len (s : str) : option nat :=
  let run := take_while is_newline s in
  if (3 <=? length run)%nat then Some (length run) else None.

(** [s.replace('\r\n', '\n')] *)
Fixpoint replace_crlf (s : str) : str :=
  match s with
  | [] => []
  | a :: t =>
      match t with
      | b :: s' =>
          if ((a =? CR) && (b =? NL))%N then NL :: replace_crlf s'
          else a :: replace_crlf t
      | [] => [a]
      end
  end.

(** [s.replace('\r', '\n')] *)
Definition replace_cr (s : str) : str :=
  map (fun c => if (c =? CR)%N then NL else c) s.

(** [ArticleScraper._normalize_markdown] *)
Definition _normalize_markdown (text : str) : str :=
  let text := re_sub newline_run_len [NL; NL] text in
  let text := replace_cr (replace_crlf text) in
  strip text.

(** ** [delta.py]: detection of changes *)

(** A Python dict with string keys: the items in insertion order.  The
    keys of a dict are distinct ([dict_wf]). *)
Definition dict (V : Type) : Type := list (str * V).

Definition dict_wf {V : Type} (d : dict V) : Prop := NoDup (map fst d).

Definition str_eqb (a b : str) : bool :=
  if list_eq_dec N.eq_dec a b then true else false.

(** [d.get(key)] *)
Fixpoint dict_get {V : Type} (key : str) (d : dict V) : option V :=
  match d with
  | [] => None
  | (k, v) :: d' => if str_eqb key k then Some v else dict_get key d'
  end.

(** [d[key] = value]: an existing key keeps its place, a new key goes
    to the end. *)
Fixpoint dict_set {V : Type} (key : str) (value : V) (d : dict V) : dict V :=
  match d with
  | [] => [(key, value)]
  | (k, v) :: d' =>
      if str_eqb key k then (k, value) :: d'
      else (k, v) :: dict_set key value d'
  end.

(** [d.update(other)] *)
Definition dict_update {V : Type} (d other : dict V) : dict V :=
  fold_left (fun acc kv => dict_set (fst kv) (snd kv) acc) other d.

(** The metadata of an article, as [scrape_articles] builds it and the
    index file stores it: every value is a string or [None]. *)
Definition Metadata : Type := dict (option str).

(** [metadata.get("hash", "")] *)
Definition metadata_hash (metadata : Metadata) : option str :=
  match dict_get (py "hash") metadata with
  | Some v => v
  | None => Some []
  end.

Definition option_str_eqb (a b : option str) : bool :=
  match a, b with
  | Some x, Some y => str_eqb x y
  | None, None => true
  | _, _ => false
  end.

(** The three lists of [detect_changes]. *)
Record Changes := mkChanges {
  new_slugs : list str;
  updated_slugs : list str;
  unchanged_slugs : list str
}.

(** Lines 36-49 of [delta.py]: where one article goes.  [index.get(slug)]
    is falsy when the slug is missing and when its entry is an empty
    dict. *)
Definition detect_step (index : dict Metadata) (acc : Changes)
           (item : str * Metadata) : Changes :=
  let '(slug, metadata) := item in
  match dict_get slug index with
  | Some ((_ :: _) as old_metadata) =>
      if negb (option_str_eqb (metadata_hash old_metadata)
                              (metadata_hash metadata))
      then {| new_slugs := new_slugs acc;
              updated_slugs := updated_slugs acc ++ [slug];
              unchanged_slugs := unchanged_slugs acc |}
      else {| new_slugs := new_slugs acc;
              updated_slugs := updated_slugs acc;
              unchanged_slugs := unchanged_slugs acc ++ [slug] |}
  | _ =>
      {| new_slugs := new_slugs acc ++ [slug];
         updated_slugs := updated_slugs acc;
         unchanged_slugs := unchanged_slugs acc |}
  end.

(** [DeltaDetector.detect_changes]; [index] is [self.index]. *)
Definition detect_changes (index scraped_articles : dict Metadata)
  : Changes :=
  fold_left (detect_step index) scraped_articles
            {| new_slugs := []; updated_slugs := [];
               unchanged_slugs := [] |}.

(** The loop of [get_articles_to_upload]; [scraped_articles[slug]]
    raises [KeyError] for a missing slug, which is [None] here. *)
Fixpoint collect_uploads (scraped_articles to_upload : dict Metadata)
         (slugs : list str) : option (dict Metadata) :=
  match slugs with
  | [] => Some to_upload
  | slug :: rest =>
      match dict_get slug scraped_articles with
      | Some metadata =>
          collect_uploads scraped_articles
                          (dict_set slug metadata to_upload) rest
      | None => None
      end
  end.

(** [DeltaDetector.get_articles_to_upload] *)
Definition get_articles_to_upload (index scraped_articles : dict Metadata)
  : option (dict Metadata) :=
  let changes := detect_changes index scraped_articles in
  collect_uploads scraped_articles []
                  (new_slugs changes ++ updated_slugs changes).

(** How an article of the scrape stands against the index. *)
Inductive Status := IsNew | IsUpdated | IsUnchanged.

Definition status_of (index : dict Metadata) (item : str * Metadata)
  : Status :=
  match dict_get (fst item) index with
  | Some ((_ :: _) as old_metadata) =>
      if option_str_eqb (metadata_hash old_metadata)
                        (metadata_hash (snd item))
      then IsUnchanged else IsUpdated
  | _ => IsNew
  end.

Definition has_status (index : dict Metadata) (st : Status)
           (item : str * Metadata) : bool :=
  match status_of index item, st with
  | IsNew, IsNew | IsUpdated, IsUpdated | IsUnchanged, IsUnchanged => true
  | _, _ => false
  end.

(** ** Notions used in the further statements *)

Definition not_space (c : char) : bool := negb (isspace c).

(** Neither whitespace nor sentence punctuation. *)
Definition is_word_char (c : char) : bool :=
  negb (isspace c || is_sentence_end c).

(** The chunk that a buffer gives when it is emitted. *)
Definition chunk_of (section_heading slug url : str) (units : list str)
           (total idx : Z) : Chunk :=
  {| text := join PARA_SEP units; tokens := total;
     chunk_heading := section_heading; chunk_index := idx;
     article_slug := slug; source_url := url |}.

(** Three newlines in a row somewhere in the text. *)
Fixpoint has_triple_newline (s : str) : bool :=
  match s with
  | a :: t =>
      match t with
      | b :: c :: _ =>
          (is_newline a && is_newline b && is_newline c)
          || has_triple_newline t
      | _ => false
      end
  | [] => false
  end.

(** The chunk carries this heading, slug and URL. *)
Definition carries_of (h slug url : str) (c : Chunk) : Prop :=
  chunk_heading c = h /\ article_slug c = slug /\ source_url c = url.

(** Every match of the pattern consists of characters that [keep]
    rejects. *)
Definition removes_only (keep : char -> bool)
           (sep_len : str -> option nat) : Prop :=
  forall s n,
    sep_len s = Some n ->
    forallb (fun c => negb (keep c)) (firstn n s) = true.

(** What [_split_by_heading] guarantees of a section.  Its content is a
    run of lines, each with its newline.  Either the section is the text
    in front of the first heading, with the empty heading and no level,
    and none of its lines is a heading line; or its first line is a
    heading line, the number of [#] signs that the pattern matched (2 or
    3) is the level, what follows them on that line, stripped, is the
    heading, and no other of its lines is a heading line. *)
Definition section_shape (s : Section) : Prop :=
  exists lines,
    content s = concat (map (fun l => l ++ [NL]) lines)
    /\ Forall (fun l => ~ In NL l) lines
    /\ ((heading_level s = None /\ heading s = []
         /\ Forall (fun l => heading_match l = None) lines)
        \/ exists (n : nat) (line g2 : str) (body : list str),
             lines = line :: body
             /\ (n = 2 \/ n = 3)%nat
             /\ heading_match line = Some (repeat HASH n, g2)
             /\ heading_level s = Some (Z.of_nat n)
             /\ heading s = strip (skipn n line)
             /\ Forall (fun l => heading_match l = None) body).

Definition section_ok (s : Section) : Prop :=
  truthy (strip (content s)) = true /\ section_shape s.

(** ** Sentence boundaries *)

(** The pattern [[.!?]+\s+] matches at the start of [s]: a run of
    sentence punctuation, then a run of whitespace, neither empty. *)
Definition boundary_at (s : str) : Prop :=
  exists p w rest,
    s = p ++ w ++ rest
    /\ p <> [] /\ forallb is_sentence_end p = true
    /\ w <> [] /\ forallb isspace w = true.

(** [units] is the text cut at its sentence boundaries, from the left.
    The last unit is a text in which the pattern matches nowhere.  A
    unit [u] in front of it ends where the leftmost match starts (the
    pattern matches at no position of [u]); the match is the whole run
    of punctuation [p] and the whole run of whitespace [w] behind it,
    and the units that follow are those of the text behind the match. *)
Inductive sentence_split : str -> list str -> Prop :=
| split_end (s : str) :
    (forall a b, s = a ++ b -> ~ boundary_at b) ->
    sentence_split s [s]
| split_at (u p w rest : str) (units : list str) :
    (forall a b, u = a ++ b -> b <> [] ->
                 ~ boundary_at (b ++ p ++ w ++ rest)) ->
    p <> [] -> forallb is_sentence_end p = true ->
    w <> [] -> forallb isspace w = true ->
    isspace (hd HASH rest) = false ->
    sentence_split rest units ->
    sentence_split (u ++ p ++ w ++ rest) (u :: units).

(** An index and a scrape for the examples: [a] is unchanged, [b] has a
    new hash, [c] is not in the index. *)
Definition meta_with_hash (h : str) : Metadata :=
  [(py "title", Some (py "t")); (py "hash", Some h)].

Definition example_index : dict Metadata :=
  [(py "a", meta_with_hash (py "1")); (py "b", meta_with_hash (py "2"))].

Definition example_scrape : dict Metadata :=
  [(py "a", meta_with_hash (py "1")); (py "b", meta_with_hash (py "3"));
   (py "c", meta_with_hash (py "9"))].

(** The number of newlines that the text starts with. *)
Definition leading_newlines (s : str) : nat :=
  length (take_while is_newline s).

(** * Properties *)

(** ** Lists and strings *)

Lemma fold_left_invariant {A B : Type} (f : A -> B -> A)
      (P : A -> Prop) (Q : B -> Prop) :
  (forall a b, P a -> Q b -> P (f a b)) ->
  forall l a, Forall Q l -> P a -> P (fold_left f l a).
Proof.
  intros Hstep l; induction l as [|x l IH]; intros a Hall Ha; simpl.
  - exact Ha.
  - inversion Hall; subst. apply IH; auto.
Qed.

Lemma fold_left_preserves {A B : Type} (f : A -> B -> A) (P : A -> Prop) :
  (forall a b, P a -> P (f a b)) ->
  forall l a, P a -> P (fold_left f l a).
Proof.
  intros Hstep l; induction l as [|x l IH]; intros a Ha; simpl; auto.
Qed.

Lemma gtb_false (a b : Z) : (a >? b) = false -> a <= b.
Proof. rewrite Z.gtb_ltb. apply Z.ltb_ge. Qed.

Lemma gtb_true (a b : Z) : (a >? b) = true -> b < a.
Proof. rewrite Z.gtb_ltb. apply Z.ltb_lt. Qed.

Lemma geb_true (a b : Z) : (a >=? b) = true -> b <= a.
Proof. rewrite Z.geb_leb. apply Z.leb_le. Qed.

Lemma truthy_true {A : Type} (l : list A) : truthy l = true <-> l <> [].
Proof. destruct l; simpl; split; congruence. Qed.

Lemma truthy_false {A : Type} (l : list A) : truthy l = false <-> l = [].
Proof. destruct l; simpl; split; congruence. Qed.

Lemma drop_while_all {A : Type} (p : A -> bool) (l : list A) :
  forallb p l = true -> drop_while p l = [].
Proof.
  induction l as [|x l IH]; simpl; intros H; [reflexivity|].
  apply andb_true_iff in H as [Hx Hl]. rewrite Hx. auto.
Qed.

Lemma drop_while_keeps {A : Type} (p : A -> bool) (l : list A) (x : A) :
  In x l -> p x = false -> drop_while p l <> [].
Proof.
  induction l as [|y l IH]; simpl; intros Hin Hx; [contradiction|].
  destruct (p y) eqn:Hy; [|discriminate].
  destruct Hin as [->|Hin]; [congruence|auto].
Qed.

Lemma drop_while_head {A : Type} (p : A -> bool) (l : list A) :
  forallb p l = false ->
  exists x t, drop_while p l = x :: t /\ p x = false.
Proof.
  induction l as [|y l IH]; simpl; intros H; [discriminate|].
  destruct (p y) eqn:Hy; simpl in H.
  - auto.
  - exists y, l. auto.
Qed.

(** A string survives [strip] exactly when it has a character that is
    not whitespace. *)
Lemma truthy_strip (s : str) :
  truthy (strip s) = negb (forallb isspace s).
Proof.
  unfold strip, rstrip, lstrip.
  destruct (forallb isspace s) eqn:Hall; simpl.
  - rewrite (drop_while_all _ _ Hall). reflexivity.
  - destruct (drop_while_head _ _ Hall) as (x & t & -> & Hx).
    apply truthy_true. intros Hnil.
    apply (f_equal (@rev char)) in Hnil. rewrite rev_involutive in Hnil.
    simpl in Hnil. revert Hnil.
    apply (drop_while_keeps isspace _ x); [|exact Hx].
    apply in_or_app. right. left. reflexivity.
Qed.

Lemma split_char_not_nil (sep : char) (s : str) : split_char sep s <> [].
Proof.
  destruct s as [|c s]; simpl; [discriminate|].
  destruct (c =? sep)%N; [discriminate|].
  destruct (split_char sep s); discriminate.
Qed.

(** Every line of [markdown.split("\n")] followed by a newline gives the
    text back, with one newline more at its end. *)
Lemma split_char_lines (s : str) :
  concat (map (fun l => l ++ [NL]) (split_char NL s)) = s ++ [NL].
Proof.
  induction s as [|c s IH]; simpl; [reflexivity|].
  destruct (c =? NL)%N eqn:Hc.
  - apply N.eqb_eq in Hc. subst c. simpl. rewrite IH. reflexivity.
  - pose proof (split_char_not_nil NL s) as Hne.
    destruct (split_char NL s) as [|p ps]; [congruence|].
    simpl in *. rewrite IH. reflexivity.
Qed.

(** No line of [markdown.split("\n")] holds a newline, which is what
    [heading_match] assumes. *)
Lemma split_char_no_sep (sep : char) (s : str) :
  Forall (fun l => ~ In sep l) (split_char sep s).
Proof.
  induction s as [|c s IH]; simpl.
  - constructor; [intros []|constructor].
  - destruct (c =? sep)%N eqn:Hc.
    + constructor; [intros []|exact IH].
    + apply N.eqb_neq in Hc.
      destruct (split_char sep s) as [|p ps]; simpl.
      * constructor; [|constructor]. intros [H|[]]. congruence.
      * inversion IH; subst. constructor; [|assumption].
        intros [H|H]; [congruence|contradiction].
Qed.

Lemma slice_from_zero {A : Type} (l : list A) : slice_from (- 0) l = l.
Proof.
  unfold slice_from. change (- 0) with 0.
  replace (0 <? 0) with false by reflexivity.
  rewrite Z.min_l by lia. reflexivity.
Qed.

Lemma slice_from_last_n {A : Type} (t : Z) (l : list A) :
  1 <= t -> slice_from (- t) l = last_n (Z.to_nat t) l.
Proof.
  intros Ht. unfold slice_from, last_n.
  destruct (- t <? 0) eqn:E; [|apply Z.ltb_ge in E; lia].
  f_equal. lia.
Qed.

(** ** The section loop: the list of chunks only grows *)

Section Steps.

Variable token : Type.
Variable encode : str -> list token.
Variable cfg : ChunkConfig.
Variable h slug url : str.

Abbreviation count := (_count_tokens encode).
Abbreviation sstep := (sentence_step encode cfg h slug url).
Abbreviation pstep := (paragraph_step encode cfg h slug url).

Lemma count_nonneg (s : str) : 0 <= count s.
Proof. unfold _count_tokens. lia. Qed.






Lemma grows_emit b : grows b (emit h slug url b).
Proof. eexists. reflexivity. Qed.







End Steps.

(** ** The section loop does not read the chunks of earlier sections *)


Section Prefix.

Variable token : Type.
Variable encode : str -> list token.
Variable cfg : ChunkConfig.
Variable h slug url : str.
Variable acc : list Chunk.

Abbreviation sstep' := (sentence_step encode cfg h slug url).
Abbreviation pstep' := (paragraph_step encode cfg h slug url).

Lemma emit_prefix b :
  emit h slug url (with_prefix acc b) = with_prefix acc (emit h slug url b).
Proof. unfold emit, with_prefix; simpl. now rewrite app_assoc. Qed.

Lemma flush_before_split_prefix b :
  flush_before_split h slug url (with_prefix acc b)
  = with_prefix acc (flush_before_split h slug url b).
Proof.
  unfold flush_before_split, with_prefix, emit; simpl.
  destruct (truthy (current_chunk b)); simpl; [|reflexivity].
  now rewrite app_assoc.
Qed.

Lemma sentence_step_prefix b s :
  sstep' (with_prefix acc b) s = with_prefix acc (sstep' b s).
Proof.
  unfold sentence_step, with_prefix, emit, reopen, append_unit; simpl.
  destruct (_ && _); simpl; [|reflexivity].
  now rewrite app_assoc.
Qed.

Lemma sentences_prefix l : forall b,
  fold_left sstep' l (with_prefix acc b)
  = with_prefix acc (fold_left sstep' l b).
Proof.
  induction l as [|s l IH]; intros b; simpl; [reflexivity|].
  rewrite sentence_step_prefix. apply IH.
Qed.

Lemma paragraph_step_prefix b p :
  pstep' (with_prefix acc b) p = with_prefix acc (pstep' b p).
Proof.
  unfold paragraph_step.
  destruct (_ >? _).
  - rewrite flush_before_split_prefix. apply sentences_prefix.
  - unfold with_prefix, emit, reopen, append_unit; simpl.
    destruct (_ && _); simpl; [|reflexivity].
    destruct (_ >=? _); simpl; [|reflexivity].
    now rewrite app_assoc.
Qed.

Lemma paragraphs_prefix l : forall b,
  fold_left pstep' l (with_prefix acc b)
  = with_prefix acc (fold_left pstep' l b).
Proof.
  induction l as [|p l IH]; intros b; simpl; [reflexivity|].
  rewrite paragraph_step_prefix. apply IH.
Qed.

Lemma final_flush_prefix b :
  final_flush cfg h slug url (with_prefix acc b)
  = with_prefix acc (final_flush cfg h slug url b).
Proof.
  unfold final_flush, with_prefix, emit; simpl.
  destruct (_ && _); simpl; [|reflexivity].
  now rewrite app_assoc.
Qed.

Lemma section_loop_prefix paragraphs :
  section_loop encode cfg h slug url acc paragraphs
  = acc ++ section_loop encode cfg h slug url [] paragraphs.
Proof.
  unfold section_loop.
  set (b0 := {| chunks := []; current_chunk := [];
                current_tokens := 0; index := 0 |}).
  replace {| chunks := acc; current_chunk := [];
             current_tokens := 0; index := 0 |}
    with (with_prefix acc b0)
    by (unfold with_prefix, b0; simpl; now rewrite app_nil_r).
  rewrite paragraphs_prefix, final_flush_prefix. reflexivity.
Qed.

End Prefix.

(** The result of [_create_chunks] is the chunks of the first section,
    then those of the second, and so on: nothing precedes the loop over
    the sections, and no section changes what another one adds. *)
Lemma create_chunks_by_section {token : Type} (encode : str -> list token)
      (cfg : ChunkConfig) (markdown slug url : str) :
  _create_chunks encode cfg markdown slug url
  = flat_map (section_chunks encode cfg slug url) (sections_of markdown).
Proof.
  unfold _create_chunks.
  assert (H : forall l acc,
             fold_left (process_section encode cfg slug url) l acc
             = acc ++ flat_map (section_chunks encode cfg slug url) l).
  { induction l as [|s l IH]; intros acc; simpl.
    - now rewrite app_nil_r.
    - rewrite IH. unfold section_chunks, process_section at 1.
      rewrite section_loop_prefix, <- app_assoc. reflexivity. }
  apply H.
Qed.

(** ** Chunk indices inside a section *)


Section Indices.

Variable token : Type.
Variable encode : str -> list token.
Variable cfg : ChunkConfig.
Variable h slug url : str.

Lemma indexed_emit b : indexed b -> indexed (emit h slug url b).
Proof.
  intros [Hi Hm]. unfold indexed, emit; simpl.
  rewrite length_app, map_app; simpl.
  replace (length (chunks b) + 1)%nat with (S (length (chunks b))) by lia.
  rewrite seq_S, map_app; simpl.
  split; [lia|]. rewrite Hm, Hi. reflexivity.
Qed.

Lemma indexed_same b b' :
  chunks b' = chunks b -> index b' = index b -> indexed b -> indexed b'.
Proof. unfold indexed. intros -> ->. auto. Qed.

Lemma indexed_flush_before_split b :
  indexed b -> indexed (flush_before_split h slug url b).
Proof.
  intros Hb. unfold flush_before_split.
  destruct (truthy (current_chunk b)); [|exact Hb].
  eapply indexed_same; [| |apply (indexed_emit b Hb)]; reflexivity.
Qed.

Lemma indexed_sentence_step b s :
  indexed b -> indexed (sentence_step encode cfg h slug url b s).
Proof.
  intros Hb. unfold sentence_step.
  destruct (_ && _).
  - eapply indexed_same; [| |apply (indexed_emit b Hb)]; reflexivity.
  - eapply indexed_same; [| |exact Hb]; reflexivity.
Qed.

Lemma indexed_paragraph_step b p :
  indexed b -> indexed (paragraph_step encode cfg h slug url b p).
Proof.
  intros Hb. unfold paragraph_step.
  destruct (_ >? _).
  - apply fold_left_preserves; [intros; now apply indexed_sentence_step|].
    now apply indexed_flush_before_split.
  - destruct (_ && _).
    + destruct (_ >=? _).
      * eapply indexed_same; [| |apply (indexed_emit b Hb)]; reflexivity.
      * eapply indexed_same; [| |exact Hb]; reflexivity.
    + eapply indexed_same; [| |exact Hb]; reflexivity.
Qed.

Lemma indexed_final_flush b :
  indexed b -> indexed (final_flush cfg h slug url b).
Proof.
  intros Hb. unfold final_flush.
  destruct (_ && _); [now apply indexed_emit|exact Hb].
Qed.

Lemma section_loop_indices paragraphs :
  let out := section_loop encode cfg h slug url [] paragraphs in
  map chunk_index out = map Z.of_nat (seq 0 (length out)).
Proof.
  unfold section_loop.
  apply indexed_final_flush.
  apply fold_left_preserves; [intros; now apply indexed_paragraph_step|].
  split; reflexivity.
Qed.

End Indices.

(** ** Token totals of the buffer and of the chunks *)

Section Bounds.

Variable token : Type.
Variable encode : str -> list token.
Variable cfg : ChunkConfig.
Variable h slug url : str.

Abbreviation cnt := (_count_tokens encode).


Lemma fresh_or_small_emit b :
  fresh_or_small encode cfg b -> current_chunk b <> [] ->
  Forall (chunk_fresh_or_small encode cfg) (chunks (emit h slug url b)).
Proof.
  intros [Hc Hb] Hne. simpl. apply Forall_app. split; [exact Hc|].
  constructor; [|constructor].
  destruct Hb as [[He _]|[_ Hb]]; [contradiction|exact Hb].
Qed.







Lemma fresh_or_small_final_flush b :
  fresh_or_small encode cfg b -> fresh_or_small encode cfg (final_flush cfg h slug url b).
Proof.
  intros Hb. unfold final_flush.
  destruct (_ && _) eqn:Hc; [|exact Hb].
  apply andb_true_iff in Hc as [Hne _]. apply truthy_true in Hne.
  split; [apply (fresh_or_small_emit b Hb Hne)|apply Hb].
Qed.


End Bounds.

(** ** Sections that stay below the minimum *)

Section Undersized.

Variable token : Type.
Variable encode : str -> list token.
Variable cfg : ChunkConfig.
Variable h slug url : str.

Hypothesis min_le_target : MIN_CHUNK_TOKENS cfg <= TARGET_TOKENS cfg.
Hypothesis target_le_max : TARGET_TOKENS cfg <= MAX_CHUNK_TOKENS cfg.

Lemma paragraph_total_nonneg (ps : list str) : 0 <= paragraph_total encode ps.
Proof.
  induction ps as [|p ps IH]; simpl; [lia|].
  pose proof (count_nonneg _ encode p). lia.
Qed.

(** While the running total and what is still to come stay below the
    minimum, every paragraph is appended and nothing is emitted. *)
Lemma undersized_paragraphs (ps : list str) : forall b,
  chunks b = [] -> 0 <= current_tokens b ->
  current_tokens b + paragraph_total encode ps < MIN_CHUNK_TOKENS cfg ->
  let b' := fold_left (paragraph_step encode cfg h slug url) ps b in
  chunks b' = []
  /\ current_tokens b' = current_tokens b + paragraph_total encode ps.
Proof.
  induction ps as [|p ps IH]; intros b Hc H0 Hlt; simpl in *.
  - split; [exact Hc|lia].
  - pose proof (count_nonneg _ encode p) as Hp.
    pose proof (paragraph_total_nonneg ps) as Hps.
    assert (Hstep : paragraph_step encode cfg h slug url b p
                    = append_unit encode b p).
    { unfold paragraph_step.
      destruct (_count_tokens encode p >? MAX_CHUNK_TOKENS cfg) eqn:Hbig;
        [apply gtb_true in Hbig; lia|].
      destruct (current_tokens b + _count_tokens encode p >? TARGET_TOKENS cfg)
        eqn:Hover; [apply gtb_true in Hover; lia|].
      reflexivity. }
    rewrite Hstep.
    destruct (IH (append_unit encode b p)) as [Hc' Ht']; simpl; try assumption;
      try lia.
    split; [exact Hc'|]. rewrite Ht'. simpl. lia.
Qed.

Lemma undersized_total_no_chunks (ps : list str) :
  paragraph_total encode ps < MIN_CHUNK_TOKENS cfg ->
  section_loop encode cfg h slug url [] ps = [].
Proof.
  intros Hlt. unfold section_loop.
  destruct (undersized_paragraphs ps
              {| chunks := []; current_chunk := [];
                 current_tokens := 0; index := 0 |}) as [Hc Ht];
    simpl; try reflexivity; try lia.
  unfold final_flush.
  destruct (_ >=? _) eqn:Hmin.
  - apply geb_true in Hmin. rewrite Ht in Hmin. simpl in Hmin. lia.
  - rewrite andb_false_r. exact Hc.
Qed.

End Undersized.

(** ** A sentence unit above the maximum *)

Section OversizedSentence.

Variable token : Type.
Variable encode : str -> list token.
Variable cfg : ChunkConfig.
Variable h slug url : str.

Hypothesis min_le_target : MIN_CHUNK_TOKENS cfg <= TARGET_TOKENS cfg.
Hypothesis target_le_max : TARGET_TOKENS cfg <= MAX_CHUNK_TOKENS cfg.










End OversizedSentence.

(** ** Documents without a heading line *)

Lemma heading_steps_without_heading (lines : list str) :
  forall sections cur,
    Forall (fun line => heading_match line = None) lines ->
    fold_left heading_step lines (sections, cur)
    = (sections,
       {| heading := heading cur;
          heading_level := heading_level cur;
          content := content cur
                     ++ concat (map (fun l => l ++ [NL]) lines) |}).
Proof.
  induction lines as [|line lines IH]; intros sections cur Hall.
  - simpl. rewrite app_nil_r. destruct cur; reflexivity.
  - inversion Hall as [|? ? Hline Hrest]; subst.
    cbn [fold_left map concat].
    assert (Hstep : heading_step (sections, cur) line
                    = (sections,
                       {| heading := heading cur;
                          heading_level := heading_level cur;
                          content := content cur ++ line ++ [NL] |})).
    { unfold heading_step. rewrite Hline. reflexivity. }
    rewrite Hstep, IH by assumption. cbn [heading heading_level content].
    rewrite <- !app_assoc. reflexivity.
Qed.

(** Without a heading line, the loop of [_split_by_heading] ends with no
    saved section and a current section that holds the document and one
    newline more. *)
Lemma split_by_heading_without_heading (markdown : str) :
  no_heading_marker markdown ->
  _split_by_heading markdown
  = if truthy (strip (markdown ++ [NL]))
    then [ {| heading := []; heading_level := None;
              content := markdown ++ [NL] |} ]
    else [].
Proof.
  intros Hno. unfold _split_by_heading.
  rewrite heading_steps_without_heading by exact Hno.
  simpl. rewrite split_char_lines. reflexivity.
Qed.

Lemma truthy_strip_newline (s : str) :
  truthy (strip (s ++ [NL])) = truthy (strip s).
Proof.
  rewrite !truthy_strip, forallb_app. simpl.
  rewrite andb_true_r. reflexivity.
Qed.

(** ** The overlap text *)

Lemma split_ws_aux_one_word (s : str) : forall cur,
  forallb (fun c => negb (isspace c)) s = true ->
  cur <> [] \/ s <> [] ->
  split_ws_aux cur s = [rev cur ++ s].
Proof.
  induction s as [|c s IH]; intros cur Hall Hne; simpl.
  - destruct Hne as [Hne|Hne]; [|congruence].
    apply truthy_true in Hne. rewrite Hne, app_nil_r. reflexivity.
  - simpl in Hall. apply andb_true_iff in Hall as [Hc Hs].
    apply negb_true_iff in Hc. rewrite Hc.
    rewrite IH; [|exact Hs|left; discriminate].
    simpl. rewrite <- app_assoc. reflexivity.
Qed.

(** A text without whitespace is its own single word. *)
Lemma split_ws_one_word (s : str) :
  forallb (fun c => negb (isspace c)) s = true -> s <> [] ->
  split_ws s = [s].
Proof.
  intros Hall Hne. unfold split_ws.
  rewrite split_ws_aux_one_word; auto.
Qed.

Section Overlap.

Variable token : Type.
Variable encode : str -> list token.
Variable cfg : ChunkConfig.

(** With a target of 0 words the slice is [overlap_words[-0:]], the whole
    list. *)
Lemma trim_overlap_zero_target (source : str) :
  _count_tokens encode source > OVERLAP_TOKENS cfg ->
  target_words encode cfg source = 0 ->
  trim_overlap encode cfg source = join [SP] (split_ws source).
Proof.
  intros Hover Hzero. unfold trim_overlap.
  destruct (_ >? _) eqn:Hc; [|apply gtb_false in Hc; lia].
  rewrite Hzero, slice_from_zero. reflexivity.
Qed.

(** With a target of one word or more the slice is the last words. *)
Lemma trim_overlap_last_words (source : str) :
  _count_tokens encode source > OVERLAP_TOKENS cfg ->
  1 <= target_words encode cfg source ->
  trim_overlap encode cfg source
  = join [SP] (last_n (Z.to_nat (target_words encode cfg source))
                      (split_ws source)).
Proof.
  intros Hover Hpos. unfold trim_overlap.
  destruct (_ >? _) eqn:Hc; [|apply gtb_false in Hc; lia].
  rewrite slice_from_last_n by exact Hpos. reflexivity.
Qed.

(** The target is the quotient rounded down, and it is below the number
    of words. *)
Lemma target_words_floor (source : str) :
  0 <= OVERLAP_TOKENS cfg ->
  _count_tokens encode source > OVERLAP_TOKENS cfg ->
  target_words encode cfg source
  = (OVERLAP_TOKENS cfg * Z.of_nat (length (split_ws source)))
    / _count_tokens encode source
  /\ target_words encode cfg source <= Z.of_nat (length (split_ws source)).
Proof.
  intros H0 Hover. unfold target_words.
  rewrite Z.quot_div_nonneg by lia.
  split; [reflexivity|].
  apply Z.div_le_upper_bound; [lia|]. nia.
Qed.

End Overlap.


(** ** The chunker reads the tokenizer through its token counts *)

Section SameCounts.

Variables tokenA tokenB : Type.
Variable encodeA : str -> list tokenA.
Variable encodeB : str -> list tokenB.
Variable cfg : ChunkConfig.
Variable h slug url : str.

Hypothesis same_counts :
  forall s, _count_tokens encodeA s = _count_tokens encodeB s.

Lemma trim_overlap_same (s : str) :
  trim_overlap encodeA cfg s = trim_overlap encodeB cfg s.
Proof.
  unfold trim_overlap, target_words. rewrite same_counts. reflexivity.
Qed.

Lemma sentence_step_same (b : Builder) (s : str) :
  sentence_step encodeA cfg h slug url b s
  = sentence_step encodeB cfg h slug url b s.
Proof.
  unfold sentence_step, reopen, append_unit.
  rewrite trim_overlap_same, !same_counts. reflexivity.
Qed.

Lemma sentences_same (l : list str) : forall b,
  fold_left (sentence_step encodeA cfg h slug url) l b
  = fold_left (sentence_step encodeB cfg h slug url) l b.
Proof.
  induction l as [|s l IH]; intros b; simpl; [reflexivity|].
  rewrite sentence_step_same. apply IH.
Qed.

Lemma paragraph_step_same (b : Builder) (p : str) :
  paragraph_step encodeA cfg h slug url b p
  = paragraph_step encodeB cfg h slug url b p.
Proof.
  unfold paragraph_step, reopen, append_unit.
  rewrite sentences_same, trim_overlap_same, !same_counts. reflexivity.
Qed.

Lemma section_loop_same (acc : list Chunk) (paragraphs : list str) :
  section_loop encodeA cfg h slug url acc paragraphs
  = section_loop encodeB cfg h slug url acc paragraphs.
Proof.
  unfold section_loop. f_equal. f_equal.
  generalize {| chunks := acc; current_chunk := [];
                current_tokens := 0; index := 0 |}.
  induction paragraphs as [|p ps IH]; intros b; simpl; [reflexivity|].
  rewrite paragraph_step_same. apply IH.
Qed.

End SameCounts.

Lemma create_chunks_same {tokenA tokenB : Type}
      (encodeA : str -> list tokenA) (encodeB : str -> list tokenB)
      (cfg : ChunkConfig) (markdown slug url : str) :
  (forall s, _count_tokens encodeA s = _count_tokens encodeB s) ->
  _create_chunks encodeA cfg markdown slug url
  = _create_chunks encodeB cfg markdown slug url.
Proof.
  intros Hsame. unfold _create_chunks.
  generalize (@nil Chunk).
  induction (sections_of markdown) as [|s l IH]; intros acc; simpl;
    [reflexivity|].
  unfold process_section at 2 4.
  rewrite (section_loop_same _ _ encodeA encodeB cfg _ slug url Hsame).
  apply IH.
Qed.

(** ** Every chunk is a buffer of its section *)

Lemma last_n_one_snoc {A : Type} (l : list A) (x : A) :
  last_n 1 (l ++ [x]) = [x].
Proof.
  unfold last_n. rewrite length_app. simpl.
  replace (length l + 1 - 1)%nat with (length l + 0)%nat by lia.
  rewrite skipn_app, Nat.add_0_r, skipn_all.
  replace (length l - length l)%nat with 0%nat by lia. reflexivity.
Qed.

Lemma paragraph_overlap_source_snoc (held : list str) (p : str) :
  paragraph_overlap_source (held ++ [p]) = p.
Proof.
  unfold paragraph_overlap_source. rewrite last_n_one_snoc.
  destruct held; reflexivity.
Qed.

Section Built.

Variable token : Type.
Variable encode : str -> list token.
Variable cfg : ChunkConfig.
Variable h slug url : str.
Variable paragraphs : list str.

Abbreviation is_buffer := (buffer encode cfg paragraphs).
Abbreviation is_built := (built encode cfg paragraphs).

Lemma buffer_not_empty (units : list str) (total : Z) :
  is_buffer units total -> units <> [].
Proof.
  intros [units' total' Hopen | units' total' u _ _ _].
  - destruct Hopen; discriminate.
  - destruct units'; discriminate.
Qed.

(** A buffer that is not within the target has just been opened. *)
Lemma buffer_small_or_opened (units : list str) (total : Z) :
  is_buffer units total ->
  total <= TARGET_TOKENS cfg \/ opened encode cfg paragraphs units total.
Proof.
  intros [units' total' Hopen | units' total' u _ _ Hle];
    [now right | now left].
Qed.

Lemma built_buffer (b : Builder) :
  is_built b -> current_chunk b <> [] ->
  is_buffer (current_chunk b) (current_tokens b).
Proof. intros [_ [[He _]|Hb]] Hne; [contradiction|exact Hb]. Qed.

Lemma built_emit (b : Builder) :
  is_built b -> current_chunk b <> [] ->
  Forall (fun c => exists units,
              chunk_of_buffer encode cfg paragraphs c units)
         (chunks (emit h slug url b)).
Proof.
  intros Hb Hne. simpl. apply Forall_app. split; [apply Hb|].
  constructor; [|constructor].
  exists (current_chunk b). split; [reflexivity|].
  apply (built_buffer b Hb Hne).
Qed.

(** The buffer that [reopen] leaves behind the overlap text of a
    flushed buffer. *)
Lemma buffer_reopen (b : Builder) (source u : str)
      (units : list str) (total : Z) :
  is_buffer units total ->
  (sentence_unit encode cfg paragraphs u
   /\ source = sentence_overlap_source units)
  \/ (paragraph_unit encode cfg paragraphs u
      /\ source = paragraph_overlap_source units) ->
  let b' := reopen encode b (trim_overlap encode cfg source) u in
  is_buffer (current_chunk b') (current_tokens b').
Proof.
  intros Hbuf Hu. unfold reopen.
  destruct (trim_overlap encode cfg source) as [|c ov] eqn:Hov;
    cbn [truthy current_chunk current_tokens].
  - apply buffer_opened. cbn [join]. apply opened_alone.
    destruct Hu as [[Hu _]|[Hu _]]; [now right|now left].
  - apply buffer_opened. rewrite <- Hov.
    destruct Hu as [[Hu ->]|[Hu ->]].
    + apply (opened_behind_sentences _ _ _ _ units total u Hbuf Hu).
      rewrite Hov. discriminate.
    + apply (opened_behind_paragraphs _ _ _ _ units total u Hbuf Hu).
      rewrite Hov. discriminate.
Qed.

Lemma buffer_append (b : Builder) (u : str) :
  is_built b ->
  paragraph_unit encode cfg paragraphs u
  \/ sentence_unit encode cfg paragraphs u ->
  (current_tokens b + _count_tokens encode u >? TARGET_TOKENS cfg)
    && truthy (current_chunk b) = false ->
  let b' := append_unit encode b u in
  is_buffer (current_chunk b') (current_tokens b').
Proof.
  intros Hb Hu Hc. cbn [append_unit current_chunk current_tokens].
  destruct (current_chunk b) as [|x cur] eqn:Hcur.
  - destruct Hb as [_ [[_ H0]|Hbuf]].
    + rewrite H0. apply buffer_opened. now apply opened_alone.
    + rewrite Hcur in Hbuf. now apply buffer_not_empty in Hbuf.
  - rewrite andb_true_r in Hc. apply gtb_false in Hc.
    apply buffer_grown; [|exact Hu|exact Hc].
    rewrite <- Hcur. apply built_buffer; [exact Hb|].
    rewrite Hcur. discriminate.
Qed.

Lemma built_sentence_step (b : Builder) (s : str) :
  is_built b -> sentence_unit encode cfg paragraphs s ->
  is_built (sentence_step encode cfg h slug url b s).
Proof.
  intros Hb Hs. unfold sentence_step.
  destruct (_ && _) eqn:Hc.
  - apply andb_true_iff in Hc as [_ Hne]. apply truthy_true in Hne.
    split.
    + apply (built_emit b Hb Hne).
    + right.
      apply (buffer_reopen (emit h slug url b) _ s
               (current_chunk b) (current_tokens b)).
      * apply (built_buffer b Hb Hne).
      * left. split; [exact Hs|reflexivity].
  - split; [apply Hb|]. right.
    apply (buffer_append b s Hb); [now right|exact Hc].
Qed.

Lemma built_flush_before_split (b : Builder) :
  is_built b -> is_built (flush_before_split h slug url b).
Proof.
  intros Hb. unfold flush_before_split.
  destruct (truthy (current_chunk b)) eqn:Hne; [|exact Hb].
  apply truthy_true in Hne. split.
  - apply (built_emit b Hb Hne).
  - left. split; reflexivity.
Qed.

Lemma built_paragraph_step (b : Builder) (p : str) :
  is_built b -> In p paragraphs ->
  is_built (paragraph_step encode cfg h slug url b p).
Proof.
  intros Hb Hp. unfold paragraph_step.
  destruct (_count_tokens encode p >? MAX_CHUNK_TOKENS cfg) eqn:Hbig.
  - apply gtb_true in Hbig.
    apply (fold_left_invariant _ is_built
             (sentence_unit encode cfg paragraphs)).
    + intros a s Ha Hs. now apply built_sentence_step.
    + apply Forall_forall. intros s Hs. exists p.
      split; [exact Hp|]. split; [lia|exact Hs].
    + now apply built_flush_before_split.
  - apply gtb_false in Hbig.
    assert (Hu : paragraph_unit encode cfg paragraphs p) by (split; assumption).
    destruct (_ && _) eqn:Hc.
    + apply andb_true_iff in Hc as [_ Hne]. apply truthy_true in Hne.
      split.
      * destruct (_ >=? _); [|apply Hb].
        apply (built_emit b Hb Hne).
      * right.
        assert (Hre : forall b0,
                   let b' := reopen encode b0
                               (trim_overlap encode cfg
                                  (paragraph_overlap_source (current_chunk b)))
                               p in
                   is_buffer (current_chunk b') (current_tokens b')).
        { intros b0.
          apply (buffer_reopen b0 _ p (current_chunk b) (current_tokens b)).
          - apply (built_buffer b Hb Hne).
          - right. split; [exact Hu|reflexivity]. }
        destruct (_ >=? _); apply Hre.
    + split; [apply Hb|]. right.
      apply (buffer_append b p Hb); [now left|exact Hc].
Qed.

Lemma built_final_flush (b : Builder) :
  is_built b -> is_built (final_flush cfg h slug url b).
Proof.
  intros Hb. unfold final_flush.
  destruct (_ && _) eqn:Hc; [|exact Hb].
  apply andb_true_iff in Hc as [Hne _]. apply truthy_true in Hne.
  split; [apply (built_emit b Hb Hne)|apply Hb].
Qed.

Lemma section_loop_built :
  Forall (fun c => exists units,
              chunk_of_buffer encode cfg paragraphs c units)
         (section_loop encode cfg h slug url [] paragraphs).
Proof.
  unfold section_loop.
  apply built_final_flush.
  apply (fold_left_invariant _ is_built (fun p => In p paragraphs)).
  - intros a p Ha Hp. now apply built_paragraph_step.
  - apply Forall_forall. auto.
  - split; [constructor|left; split; reflexivity].
Qed.

End Built.

(** ** Sections without an oversized paragraph *)

Section Seams.

Variable token : Type.
Variable encode : str -> list token.
Variable cfg : ChunkConfig.
Variable h slug url : str.
Variable paragraphs : list str.

Hypothesis target_le_max : TARGET_TOKENS cfg <= MAX_CHUNK_TOKENS cfg.
Hypothesis paragraphs_within_max :
  Forall (fun p => _count_tokens encode p <= MAX_CHUNK_TOKENS cfg)
         paragraphs.

Abbreviation in_bounds := (chunk_within_bounds encode cfg paragraphs).

(** The buffer that is emitted when the paragraphs [done] have been
    read. *)
Lemma seams_emit (done todo : list str) (b : Builder) :
  paragraphs = done ++ todo ->
  Forall in_bounds (chunks b) -> buffer_at encode cfg done b ->
  current_chunk b <> [] ->
  MIN_CHUNK_TOKENS cfg <= current_tokens b ->
  Forall in_bounds (chunks (emit h slug url b)).
Proof.
  intros Hps Hc Hb Hne Hmin. simpl. apply Forall_app.
  split; [exact Hc|]. constructor; [|constructor].
  split; [exact Hmin|]. cbn [tokens text].
  destruct Hb as [[He _]|(front & p & held & Hdone & Hcur & Hb)];
    [contradiction|].
  destruct Hb as [Hb|(front' & p0 & Hfront & Hov & Hcur' & Ht)];
    [now left|right].
  exists front', p0, p, todo.
  split; [|split; [exact Hov|]].
  - rewrite Hps, Hdone, Hfront, <- !app_assoc. reflexivity.
  - rewrite Hcur'. split; [reflexivity|exact Ht].
Qed.

Lemma seams_paragraph_step (done todo : list str) (q : str) (b : Builder) :
  paragraphs = done ++ q :: todo ->
  Forall in_bounds (chunks b) -> buffer_at encode cfg done b ->
  let b' := paragraph_step encode cfg h slug url b q in
  Forall in_bounds (chunks b') /\ buffer_at encode cfg (done ++ [q]) b'.
Proof.
  intros Hps Hc Hb.
  assert (Hq : _count_tokens encode q <= MAX_CHUNK_TOKENS cfg).
  { rewrite Forall_forall in paragraphs_within_max.
    apply paragraphs_within_max. rewrite Hps.
    apply in_or_app. right. now left. }
  cbv zeta. unfold paragraph_step.
  destruct (_count_tokens encode q >? MAX_CHUNK_TOKENS cfg) eqn:Hbig;
    [apply gtb_true in Hbig; lia|].
  destruct (_ && _) eqn:Hover.
  - apply andb_true_iff in Hover as [_ Hne]. apply truthy_true in Hne.
    split.
    + destruct (current_tokens b >=? MIN_CHUNK_TOKENS cfg) eqn:Hmin;
        [|exact Hc].
      apply geb_true in Hmin.
      apply (seams_emit done (q :: todo) b Hps Hc Hb Hne Hmin).
    + destruct Hb as [[He _]|(front & p & held & Hdone & Hcur & _)];
        [contradiction|].
      right. rewrite Hcur, paragraph_overlap_source_snoc.
      exists done, q.
      destruct (trim_overlap encode cfg p) as [|c ov] eqn:Hov.
      * exists []. split; [reflexivity|].
        destruct (_ >=? _); (split; [reflexivity|]); left; exact Hq.
      * exists [c :: ov]. split; [reflexivity|].
        destruct (_ >=? _); (split; [reflexivity|]); right;
          exists front, p; rewrite Hov;
          (split; [exact Hdone|]); (split; [discriminate|]);
          split; reflexivity.
  - split; [exact Hc|]. right.
    exists done, q, (current_chunk b).
    split; [reflexivity|]. split; [reflexivity|]. left.
    cbn [append_unit current_tokens].
    apply andb_false_iff in Hover as [Hover|Hover].
    + apply gtb_false in Hover. lia.
    + apply truthy_false in Hover.
      destruct Hb as [[_ H0]|(front & p & held & _ & Hcur & _)].
      * rewrite H0. exact Hq.
      * rewrite Hcur in Hover. destruct held; discriminate.
Qed.

Lemma seams_paragraphs (todo : list str) :
  forall (done : list str) (b : Builder),
    paragraphs = done ++ todo ->
    Forall in_bounds (chunks b) -> buffer_at encode cfg done b ->
    let b' := fold_left (paragraph_step encode cfg h slug url) todo b in
    Forall in_bounds (chunks b') /\ buffer_at encode cfg paragraphs b'.
Proof.
  induction todo as [|q todo IH]; intros done b Hps Hc Hb.
  - rewrite app_nil_r in Hps. subst done. split; assumption.
  - destruct (seams_paragraph_step done todo q b Hps Hc Hb) as [Hc' Hb'].
    cbn [fold_left]. apply (IH (done ++ [q])); [|exact Hc'|exact Hb'].
    rewrite <- app_assoc. exact Hps.
Qed.

Lemma section_loop_seams :
  Forall in_bounds (section_loop encode cfg h slug url [] paragraphs).
Proof.
  unfold section_loop.
  destruct (seams_paragraphs paragraphs []
              {| chunks := []; current_chunk := [];
                 current_tokens := 0; index := 0 |})
    as [Hc Hb]; [reflexivity|constructor|left; split; reflexivity|].
  cbv zeta in Hc, Hb. unfold final_flush.
  destruct (_ && _) eqn:Hf; [|exact Hc].
  apply andb_true_iff in Hf as [Hne Hmin].
  apply truthy_true in Hne. apply geb_true in Hmin.
  apply (seams_emit paragraphs [] _ (eq_sym (app_nil_r _)) Hc Hb Hne Hmin).
Qed.

End Seams.

Lemma within_max_spec {token : Type} (encode : str -> list token)
      (cfg : ChunkConfig) (paragraphs : list str) :
  within_max encode cfg paragraphs = true <->
  Forall (fun p => _count_tokens encode p <= MAX_CHUNK_TOKENS cfg)
         paragraphs.
Proof.
  unfold within_max. rewrite forallb_forall, Forall_forall.
  split; intros H p Hp; apply Z.leb_le; auto.
Qed.

(** * The claims *)

Lemma in_create_chunks {token : Type} (encode : str -> list token)
      (cfg : ChunkConfig) (markdown slug url : str) (c : Chunk) :
  In c (_create_chunks encode cfg markdown slug url) ->
  exists section,
    In section (sections_of markdown)
    /\ In c (section_chunks encode cfg slug url section).
Proof.
  rewrite create_chunks_by_section. intros Hin.
  apply in_flat_map in Hin. exact Hin.
Qed.

Lemma no_oversized_paragraph_spec {token : Type} (encode : str -> list token)
      (cfg : ChunkConfig) (markdown : str) :
  no_oversized_paragraph encode cfg markdown = true ->
  forall section para,
    In section (sections_of markdown) ->
    In para (_split_into_paragraphs (content section)) ->
    _count_tokens encode para <= MAX_CHUNK_TOKENS cfg.
Proof.
  unfold no_oversized_paragraph. intros Hno section para Hsec Hpara.
  rewrite forallb_forall in Hno. specialize (Hno section Hsec).
  rewrite forallb_forall in Hno. specialize (Hno para Hpara).
  apply Z.leb_le in Hno. exact Hno.
Qed.

(** ** C1: bounds on [tokens] *)

(** C1, as stated, fails.  Under the tokenizer with one token per
    character, the document [doc_overlap_exceeds] has no paragraph above
    the maximum, hence no sentence unit at all, and yet its second chunk
    (the overlap text of 99 characters, a blank line and the paragraph
    of 750 characters) has 851 tokens. *)
Lemma C1_counterexample :
  ~ bounds_as_stated char_encode module_config doc_overlap_exceeds.
Proof.
  intros Hclaim.
  assert (Hl : exists c0 c1,
             _create_chunks char_encode module_config
                            doc_overlap_exceeds [] [] = [c0; c1]
             /\ tokens c1 = 851).
  { vm_compute. do 2 eexists. split; reflexivity. }
  destruct Hl as (c0 & c1 & Hl & Ht).
  destruct (Hclaim c1) as [[Hunit _]|[_ Hmax]].
  - rewrite Hl. right. left. reflexivity.
  - destruct Hunit as (section & para & Hsec & Hpara & Hbig & _).
    assert (Hno : no_oversized_paragraph char_encode module_config
                                         doc_overlap_exceeds = true)
      by (vm_compute; reflexivity).
    pose proof (no_oversized_paragraph_spec _ _ _ Hno section para
                                            Hsec Hpara).
    lia.
  - rewrite Ht in Hmax. simpl in Hmax. lia.
Qed.

(** C1, amended.  Every chunk that [_create_chunks] emits comes from a
    section of the document and is a buffer of that section: its text
    is the units of the buffer joined by blank lines and its [tokens] is
    the running total of the buffer.  The buffers of a section are: one
    unit alone (a paragraph within [MAX_CHUNK_TOKENS], or a sentence unit
    of a paragraph above it), with its token count; a non-empty overlap
    text and one unit, with the token count of their joined text, the
    overlap text being the trimmed overlap source of a buffer of the
    section (its last unit when the new unit is a paragraph, its last
    two units when it is a sentence unit); and a buffer grown by one
    unit and the token count of that unit, the total staying within
    [TARGET_TOKENS].  So [tokens] is within
    [TARGET_TOKENS] (600, below the maximum) unless the buffer had just
    been opened, alone or behind an overlap text.  In a section none of
    whose paragraphs exceeds [MAX_CHUNK_TOKENS], every chunk moreover
    has [MIN_CHUNK_TOKENS <= tokens], and [tokens <= MAX_CHUNK_TOKENS]
    unless its text is the non-empty trimmed overlap of a paragraph [p],
    a blank line and the paragraph that follows [p] in the section, and
    [tokens] is the token count of that text. *)
Theorem C1_bounds_amended {token : Type} (encode : str -> list token)
        (markdown slug url : str) (c : Chunk) :
  In c (_create_chunks encode module_config markdown slug url) ->
  exists section,
    In section (sections_of markdown)
    /\ In c (section_chunks encode module_config slug url section)
    /\ let paragraphs := _split_into_paragraphs (content section) in
       (exists units,
           text c = join PARA_SEP units
           /\ buffer encode module_config paragraphs units (tokens c)
           /\ (tokens c <= TARGET_TOKENS module_config
               \/ opened encode module_config paragraphs units (tokens c)))
       /\ (within_max encode module_config paragraphs = true ->
           MIN_CHUNK_TOKENS module_config <= tokens c
           /\ (tokens c <= MAX_CHUNK_TOKENS module_config
               \/ overlap_seam encode module_config paragraphs c)).
Proof.
  intros Hin.
  destruct (in_create_chunks _ _ _ _ _ _ Hin) as (section & Hsec & Hc).
  exists section. split; [exact Hsec|]. split; [exact Hc|].
  unfold section_chunks, process_section in Hc. cbv zeta. split.
  - pose proof (section_loop_built _ encode module_config
                  (heading section) slug url
                  (_split_into_paragraphs (content section))) as Hall.
    rewrite Forall_forall in Hall.
    destruct (Hall c Hc) as (units & Htext & Hbuf).
    exists units. split; [exact Htext|]. split; [exact Hbuf|].
    apply (buffer_small_or_opened _ _ _ _ _ _ Hbuf).
  - intros Hmax. apply within_max_spec in Hmax.
    assert (Hle : TARGET_TOKENS module_config
                  <= MAX_CHUNK_TOKENS module_config) by (simpl; lia).
    pose proof (section_loop_seams _ encode module_config
                  (heading section) slug url _ Hle Hmax) as Hall.
    rewrite Forall_forall in Hall. apply (Hall c Hc).
Qed.

Lemma C1_bounds_amended_witness :
  exists c section,
    In section (sections_of doc_overlap_exceeds)
    /\ In c (section_chunks char_encode module_config [] [] section)
    /\ tokens c = 851
    /\ MIN_CHUNK_TOKENS module_config <= tokens c
    /\ overlap_seam char_encode module_config
                    (_split_into_paragraphs (content section)) c.
Proof.
  assert (Hl : exists c0 c1,
             _create_chunks char_encode module_config
                            doc_overlap_exceeds [] [] = [c0; c1]
             /\ tokens c1 = 851).
  { vm_compute. do 2 eexists. split; reflexivity. }
  destruct Hl as (c0 & c1 & Hl & Ht).
  assert (Hin : In c1 (_create_chunks char_encode module_config
                                      doc_overlap_exceeds [] []))
    by (rewrite Hl; right; left; reflexivity).
  destruct (C1_bounds_amended char_encode doc_overlap_exceeds [] [] c1 Hin)
    as (section & Hsec & Hc & _ & Hbounds).
  assert (Hno : no_oversized_paragraph char_encode module_config
                                       doc_overlap_exceeds = true)
    by (vm_compute; reflexivity).
  destruct Hbounds as [Hmin Hmax].
  { apply within_max_spec, Forall_forall. intros p Hp.
    exact (no_oversized_paragraph_spec _ _ _ Hno section p Hsec Hp). }
  exists c1, section.
  split; [exact Hsec|]. split; [exact Hc|]. split; [exact Ht|].
  split; [exact Hmin|].
  destruct Hmax as [Hmax|Hseam]; [|exact Hseam].
  rewrite Ht in Hmax. simpl in Hmax. lia.
Defined.

(** ** C2: the flush rule *)

(** C2 holds for the flush of the paragraph loop and for the final
    flush, which test [current_tokens >= MIN_CHUNK_TOKENS]; the two
    flushes of the oversized branch do not test it.  In
    [doc_small_then_oversized] the buffer of 50 tokens is emitted when
    the oversized paragraph arrives; in [doc_oversized_second_sentence]
    the buffer of 10 tokens is emitted inside the sentence loop. *)
Theorem C2_oversized_branch_flushes_below_minimum :
  (exists c rest,
      _create_chunks char_encode module_config
                     doc_small_then_oversized [] [] = c :: rest
      /\ text c = small_paragraph /\ tokens c = 50
      /\ tokens c < MIN_CHUNK_TOKENS module_config)
  /\ (exists c rest,
         _create_chunks char_encode module_config
                        doc_oversized_second_sentence [] [] = c :: rest
         /\ text c = short_sentence /\ tokens c = 10
         /\ tokens c < MIN_CHUNK_TOKENS module_config).
Proof.
  split; vm_compute; do 2 eexists; repeat split; reflexivity.
Qed.

(** ** C3: validation of the thresholds *)



(** ** C4: a sentence unit above the maximum *)




(** ** C5: the trimmed overlap text *)

(** Forty words in 239 tokens: the target is floor(100 * 40 / 239) = 16
    and the overlap text is the last 16 words. *)
Example trim_overlap_forty_words :
  target_words char_encode module_config forty_words = 16
  /\ trim_overlap char_encode module_config forty_words
     = join [SP] (repeat (py "words") 16)
  /\ exists c0 c1,
       _create_chunks char_encode module_config
                      doc_forty_words_overlap [] [] = [c0; c1]
       /\ text c1 = join [SP] (repeat (py "words") 16)
                    ++ PARA_SEP ++ next_paragraph.
Proof.
  split; [vm_compute; reflexivity|].
  split; [vm_compute; reflexivity|].
  vm_compute. do 2 eexists. split; reflexivity.
Qed.

(** C5 holds whenever the target is one word or more
    ([trim_overlap_last_words], [target_words_floor]); the code misses
    the target 0.  The paragraph [one_word] has 300 tokens and one word,
    so the target is floor(100 * 1 / 300) = 0 and the last 0 words are
    no text at all; the code keeps the whole paragraph as overlap text
    and the next chunk is both paragraphs, 702 tokens. *)
Theorem C5_zero_target_keeps_whole_text :
  _count_tokens char_encode one_word > OVERLAP_TOKENS module_config
  /\ target_words char_encode module_config one_word = 0
  /\ join [SP] (last_n 0 (split_ws one_word)) = []
  /\ trim_overlap char_encode module_config one_word = one_word
  /\ exists c0 c1,
       _create_chunks char_encode module_config
                      doc_one_word_overlap [] [] = [c0; c1]
       /\ text c1 = one_word ++ PARA_SEP ++ next_paragraph
       /\ tokens c1 = 702.
Proof.
  split; [vm_compute; reflexivity|].
  split; [vm_compute; reflexivity|].
  split; [vm_compute; reflexivity|].
  split; [vm_compute; reflexivity|].
  vm_compute. do 2 eexists. repeat split; reflexivity.
Qed.

(** ** C7: chunk indices *)

(** C7.  The result of [_create_chunks] is the chunks of its sections,
    section after section, and the chunks of any one section carry the
    indices 0, 1, 2, ... in this order: the k-th chunk of a section has
    [chunk_index] k-1, and the count starts again at 0 with every
    section. *)
Theorem C7_chunk_index_per_section {token : Type}
        (encode : str -> list token) (cfg : ChunkConfig)
        (markdown slug url : str) :
  _create_chunks encode cfg markdown slug url
  = flat_map (section_chunks encode cfg slug url) (sections_of markdown)
  /\ forall section,
       map chunk_index (section_chunks encode cfg slug url section)
       = map Z.of_nat
             (seq 0 (length (section_chunks encode cfg slug url section))).
Proof.
  split; [apply create_chunks_by_section|].
  intros section. unfold section_chunks, process_section.
  apply section_loop_indices.
Qed.

(** ** C8: undersized sections *)

(** C8, as stated, fails.  Under the tokenizer with one token per four
    characters, the single section of [doc_many_short_paragraphs] has
    599 characters, 150 tokens, below the minimum; each of its 200
    paragraphs counts one token, the running total reaches 200 and the
    final flush emits a chunk. *)
Lemma C8_counterexample :
  exists section,
    In section (sections_of doc_many_short_paragraphs)
    /\ _count_tokens quad_encode (content section)
       < MIN_CHUNK_TOKENS module_config
    /\ section_chunks quad_encode module_config [] [] section <> [].
Proof.
  exists {| heading := []; heading_level := None;
            content := doc_many_short_paragraphs ++ [NL] |}.
  split; [vm_compute; left; reflexivity|].
  split; [vm_compute; reflexivity|].
  vm_compute. discriminate.
Qed.

(** C8, amended.  A section whose content counts fewer tokens than
    [MIN_CHUNK_TOKENS] yields no chunk, provided the token counts of its
    paragraphs add up to no more than the token count of its content
    (as they do when tokens are words or characters).  What decides is
    the sum over the paragraphs: the chunker never counts the content as
    a whole. *)
Theorem C8_undersized_section {token : Type} (encode : str -> list token)
        (slug url : str) (section : Section) :
  paragraph_total encode (_split_into_paragraphs (content section))
  <= _count_tokens encode (content section) ->
  _count_tokens encode (content section) < MIN_CHUNK_TOKENS module_config ->
  section_chunks encode module_config slug url section = [].
Proof.
  intros Hsum Hsmall. unfold section_chunks, process_section.
  apply undersized_total_no_chunks; simpl; simpl in Hsmall; lia.
Qed.

Lemma C8_undersized_section_witness :
  section_chunks word_encode module_config [] []
    {| heading := []; heading_level := None;
       content := py "one two three" ++ PARA_SEP ++ py "four five" |}
  = [].
Proof.
  apply C8_undersized_section.
  - vm_compute. discriminate.
  - vm_compute. reflexivity.
Defined.

(** ** C9: documents without a heading *)

(** C9, as stated, fails.  The document "abc" has no heading line; the
    content of its only section is "abc" followed by a newline, not the
    document, both in [_split_by_heading] and in the sections that
    [_create_chunks] runs over.  The document " " has no heading line
    and [_split_by_heading] yields no section for it. *)
Lemma C9_counterexample :
  no_heading_marker (py "abc")
  /\ ~ (exists section,
          _split_by_heading (py "abc") = [section]
          /\ heading section = [] /\ content section = py "abc")
  /\ ~ (exists section,
          sections_of (py "abc") = [section]
          /\ heading section = [] /\ content section = py "abc")
  /\ no_heading_marker (py " ")
  /\ _split_by_heading (py " ") = [].
Proof.
  split; [repeat constructor|].
  split; [|split; [|split; [repeat constructor|reflexivity]]].
  - intros (section & Hs & _ & Hc). vm_compute in Hs.
    injection Hs as <-. vm_compute in Hc. discriminate.
  - intros (section & Hs & _ & Hc). vm_compute in Hs.
    injection Hs as <-. vm_compute in Hc. discriminate.
Qed.

(** C9, amended.  For a document without a level-2 or level-3 heading
    line: when it has a character that is not whitespace,
    [_split_by_heading] yields exactly one section, whose heading is the
    empty string and whose content is the document followed by one
    newline; when it is empty or all whitespace, [_split_by_heading]
    yields no section, and [_create_chunks] then runs over one section
    with the empty heading and the document as content. *)
Theorem C9_no_heading_fallback (markdown : str) :
  no_heading_marker markdown ->
  (truthy (strip markdown) = true ->
   _split_by_heading markdown
   = [ {| heading := []; heading_level := None;
          content := markdown ++ [NL] |} ])
  /\ (truthy (strip markdown) = false ->
      _split_by_heading markdown = []
      /\ sections_of markdown
         = [ {| heading := []; heading_level := None;
                content := markdown |} ]).
Proof.
  intros Hno.
  pose proof (split_by_heading_without_heading markdown Hno) as Hs.
  rewrite truthy_strip_newline in Hs.
  split; intros Hstrip; rewrite Hstrip in Hs.
  - exact Hs.
  - split; [exact Hs|]. unfold sections_of. rewrite Hs. reflexivity.
Qed.

Lemma C9_no_heading_fallback_witness :
  _split_by_heading (py "abc")
  = [ {| heading := []; heading_level := None;
         content := py "abc" ++ [NL] |} ]
  /\ _split_by_heading [] = []
  /\ sections_of []
     = [ {| heading := []; heading_level := None; content := [] |} ].
Proof.
  split.
  - apply (C9_no_heading_fallback (py "abc")).
    + repeat constructor.
    + reflexivity.
  - apply (C9_no_heading_fallback []).
    + repeat constructor.
    + reflexivity.
Defined.

(** ** C10: a target of zero words *)

(** C10, as stated, fails.  The paragraph [two_lines] has 301 tokens and
    two words, so the target is floor(100 * 2 / 301) = 0; the overlap
    text that is kept is the two words joined by a space, not the
    paragraph, whose words stand on two lines. *)
Lemma C10_counterexample :
  _count_tokens char_encode two_lines > OVERLAP_TOKENS module_config
  /\ target_words char_encode module_config two_lines = 0
  /\ trim_overlap char_encode module_config two_lines = two_lines_joined
  /\ trim_overlap char_encode module_config two_lines <> two_lines
  /\ exists c0 c1,
       _create_chunks char_encode module_config
                      doc_two_lines_overlap [] [] = [c0; c1]
       /\ text c0 = two_lines
       /\ text c1 = two_lines_joined ++ PARA_SEP ++ next_paragraph.
Proof.
  split; [vm_compute; reflexivity|].
  split; [vm_compute; reflexivity|].
  split; [vm_compute; reflexivity|].
  split; [vm_compute; discriminate|].
  vm_compute. do 2 eexists. repeat split; reflexivity.
Qed.

(** C10, amended.  When the overlap source counts more tokens than
    [OVERLAP_TOKENS] and the target word count is 0, the slice
    [overlap_words[-0:]] is the whole word list: the overlap text that is
    kept is all words of the source, joined by single spaces.  It is the
    source text unchanged when the source is its words joined by single
    spaces (one word, for instance), and it then counts more tokens
    than [OVERLAP_TOKENS] instead of being trimmed towards it. *)
Theorem C10_zero_target_keeps_all_words {token : Type}
        (encode : str -> list token) (cfg : ChunkConfig) (source : str) :
  _count_tokens encode source > OVERLAP_TOKENS cfg ->
  target_words encode cfg source = 0 ->
  slice_from (- target_words encode cfg source) (split_ws source)
  = split_ws source
  /\ trim_overlap encode cfg source = join [SP] (split_ws source)
  /\ (join [SP] (split_ws source) = source ->
      trim_overlap encode cfg source = source
      /\ _count_tokens encode (trim_overlap encode cfg source)
         > OVERLAP_TOKENS cfg).
Proof.
  intros Hover Hzero.
  pose proof (trim_overlap_zero_target _ encode cfg source Hover Hzero)
    as Htrim.
  split; [rewrite Hzero; apply slice_from_zero|].
  split; [exact Htrim|].
  intros Hsame. rewrite Htrim, Hsame. split; [reflexivity|exact Hover].
Qed.

Lemma C10_zero_target_keeps_all_words_witness :
  trim_overlap char_encode module_config one_word = one_word
  /\ _count_tokens char_encode
                   (trim_overlap char_encode module_config one_word)
     > OVERLAP_TOKENS module_config.
Proof.
  assert (Hover : _count_tokens char_encode one_word
                  > OVERLAP_TOKENS module_config)
    by (vm_compute; reflexivity).
  assert (Hzero : target_words char_encode module_config one_word = 0)
    by (vm_compute; reflexivity).
  destruct (C10_zero_target_keeps_all_words char_encode module_config
              one_word Hover Hzero) as (_ & _ & Hkept).
  apply Hkept. vm_compute. reflexivity.
Defined.

(** * Further properties of the chunker *)

(** ** What every chunk carries *)

Section Carried.

Variable token : Type.
Variable encode : str -> list token.
Variable cfg : ChunkConfig.
Variable h slug url : str.

Lemma carries_emit b :
  Forall (carries_of h slug url) (chunks b) -> Forall (carries_of h slug url) (chunks (emit h slug url b)).
Proof.
  intros Hb. simpl. apply Forall_app. split; [exact Hb|].
  constructor; [repeat split|constructor].
Qed.

Lemma carries_sentence_step b s :
  Forall (carries_of h slug url) (chunks b) ->
  Forall (carries_of h slug url) (chunks (sentence_step encode cfg h slug url b s)).
Proof.
  intros Hb. unfold sentence_step.
  destruct (_ && _); [apply (carries_emit b Hb)|exact Hb].
Qed.

Lemma carries_paragraph_step b p :
  Forall (carries_of h slug url) (chunks b) ->
  Forall (carries_of h slug url) (chunks (paragraph_step encode cfg h slug url b p)).
Proof.
  intros Hb. unfold paragraph_step.
  destruct (_count_tokens encode p >? MAX_CHUNK_TOKENS cfg).
  - apply (fold_left_preserves _ (fun b => Forall (carries_of h slug url) (chunks b)));
      [intros; now apply carries_sentence_step|].
    unfold flush_before_split.
    destruct (truthy (current_chunk b)); [apply (carries_emit b Hb)|exact Hb].
  - destruct (_ && _); [|exact Hb].
    destruct (_ >=? _); [apply (carries_emit b Hb)|exact Hb].
Qed.

Lemma section_loop_carries paragraphs :
  Forall (carries_of h slug url) (section_loop encode cfg h slug url [] paragraphs).
Proof.
  unfold section_loop, final_flush.
  set (b := fold_left _ _ _).
  assert (Hb : Forall (carries_of h slug url) (chunks b)).
  { apply (fold_left_preserves _ (fun b => Forall (carries_of h slug url) (chunks b)));
      [intros; now apply carries_paragraph_step|constructor]. }
  destruct (_ && _); [apply (carries_emit b Hb)|exact Hb].
Qed.

End Carried.

(** X1.  Every chunk of a section carries the heading of that section,
    and every chunk of the result carries the slug and the URL that
    [_create_chunks] was called with. *)
Theorem chunks_carry_heading_slug_url {token : Type}
        (encode : str -> list token) (cfg : ChunkConfig)
        (markdown slug url : str) :
  (forall section,
      Forall (fun c => chunk_heading c = heading section)
             (section_chunks encode cfg slug url section))
  /\ Forall (fun c => article_slug c = slug /\ source_url c = url)
            (_create_chunks encode cfg markdown slug url).
Proof.
  split.
  - intros section. unfold section_chunks, process_section.
    eapply Forall_impl; [|apply section_loop_carries].
    intros c (Hh & _). exact Hh.
  - rewrite create_chunks_by_section. apply Forall_flat_map.
    apply Forall_forall. intros section _.
    unfold section_chunks, process_section.
    eapply Forall_impl; [|apply section_loop_carries].
    intros c (_ & Hs). exact Hs.
Qed.

(** ** A section that fits the target *)

Section Fits.

Variable token : Type.
Variable encode : str -> list token.
Variable cfg : ChunkConfig.
Variable h slug url : str.

Hypothesis target_le_max : TARGET_TOKENS cfg <= MAX_CHUNK_TOKENS cfg.

Lemma fitting_paragraphs (ps : list str) : forall b,
  0 <= current_tokens b ->
  current_tokens b + paragraph_total encode ps <= TARGET_TOKENS cfg ->
  fold_left (paragraph_step encode cfg h slug url) ps b
  = {| chunks := chunks b;
       current_chunk := current_chunk b ++ ps;
       current_tokens := current_tokens b + paragraph_total encode ps;
       index := index b |}.
Proof.
  induction ps as [|p ps IH]; intros b H0 Hle; simpl in *.
  - rewrite app_nil_r, Z.add_0_r. destruct b; reflexivity.
  - pose proof (count_nonneg _ encode p) as Hp.
    pose proof (paragraph_total_nonneg _ encode ps) as Hps.
    assert (Hstep : paragraph_step encode cfg h slug url b p
                    = append_unit encode b p).
    { unfold paragraph_step.
      destruct (_count_tokens encode p >? MAX_CHUNK_TOKENS cfg) eqn:Hbig;
        [apply gtb_true in Hbig; lia|].
      destruct (current_tokens b + _count_tokens encode p >? TARGET_TOKENS cfg)
        eqn:Hover; [apply gtb_true in Hover; lia|].
      reflexivity. }
    rewrite Hstep, IH; simpl; try lia.
    rewrite <- app_assoc, Z.add_assoc. reflexivity.
Qed.

Lemma fitting_section_loop (ps : list str) :
  MIN_CHUNK_TOKENS cfg <= paragraph_total encode ps ->
  paragraph_total encode ps <= TARGET_TOKENS cfg ->
  ps <> [] ->
  section_loop encode cfg h slug url [] ps
  = [chunk_of h slug url ps (paragraph_total encode ps) 0].
Proof.
  intros Hmin Hmax Hne. unfold section_loop.
  rewrite fitting_paragraphs; simpl; try lia.
  unfold final_flush. simpl.
  apply truthy_true in Hne. rewrite Hne.
  destruct (_ >=? _) eqn:Hge; [reflexivity|].
  rewrite Z.geb_leb in Hge. apply Z.leb_gt in Hge. lia.
Qed.

End Fits.

(** X2.  A section with at least one paragraph whose paragraphs total
    between [MIN_CHUNK_TOKENS] and [TARGET_TOKENS] becomes exactly one
    chunk: its text is the paragraphs joined by blank lines, its
    [tokens] their total, its index 0. *)
Theorem section_within_target_is_one_chunk {token : Type}
        (encode : str -> list token) (slug url : str) (section : Section) :
  _split_into_paragraphs (content section) <> [] ->
  MIN_CHUNK_TOKENS module_config
  <= paragraph_total encode (_split_into_paragraphs (content section)) ->
  paragraph_total encode (_split_into_paragraphs (content section))
  <= TARGET_TOKENS module_config ->
  section_chunks encode module_config slug url section
  = [chunk_of (heading section) slug url
              (_split_into_paragraphs (content section))
              (paragraph_total encode
                 (_split_into_paragraphs (content section))) 0].
Proof.
  intros Hne Hmin Hmax. unfold section_chunks, process_section.
  apply fitting_section_loop; try assumption. simpl. lia.
Qed.

Lemma section_within_target_is_one_chunk_witness :
  section_chunks char_encode module_config [] []
    {| heading := []; heading_level := None;
       content := one_word ++ PARA_SEP ++ one_word |}
  = [chunk_of [] [] [] [one_word; one_word] 600 0].
Proof.
  assert (Hps : _split_into_paragraphs (one_word ++ PARA_SEP ++ one_word)
                = [one_word; one_word]) by (vm_compute; reflexivity).
  assert (Htot : paragraph_total char_encode [one_word; one_word] = 600)
    by (vm_compute; reflexivity).
  pose proof (section_within_target_is_one_chunk char_encode [] []
                {| heading := []; heading_level := None;
                   content := one_word ++ PARA_SEP ++ one_word |}) as H.
  cbn [content heading] in H. rewrite Hps, Htot in H.
  apply H.
  - discriminate.
  - vm_compute. discriminate.
  - vm_compute. discriminate.
Defined.

(** ** What the splits keep *)

Lemma re_split_aux_not_nil (sep_len : str -> option nat) (s : str) :
  forall skip, re_split_aux sep_len skip s <> [].
Proof.
  induction s as [|c s IH]; intros skip; simpl; [discriminate|].
  destruct skip as [|k]; [|apply IH].
  destruct (sep_len (c :: s)) as [[|k]|];
    try discriminate;
    specialize (IH 0%nat); destruct (re_split_aux sep_len 0 s);
    simpl; congruence.
Qed.

Lemma concat_cons_first (c : char) (pieces : list str) :
  pieces <> [] -> concat (cons_first c pieces) = c :: concat pieces.
Proof. destruct pieces; simpl; congruence. Qed.

(** A split whose separators hold only characters that [keep] rejects
    returns all characters that [keep] accepts, in their order. *)
Lemma re_split_aux_keeps (keep : char -> bool)
      (sep_len : str -> option nat) :
  removes_only keep sep_len ->
  forall s skip,
    forallb (fun c => negb (keep c)) (firstn skip s) = true ->
    filter keep (concat (re_split_aux sep_len skip s)) = filter keep s.
Proof.
  intros Hsep s. induction s as [|c s IH]; intros skip Hskip.
  - reflexivity.
  - destruct skip as [|k].
    + cbn [re_split_aux].
      destruct (sep_len (c :: s)) as [[|k]|] eqn:Hm.
      * rewrite concat_cons_first by apply re_split_aux_not_nil.
        simpl. rewrite (IH 0%nat) by reflexivity. reflexivity.
      * pose proof (Hsep _ _ Hm) as Hrm. simpl in Hrm.
        apply andb_true_iff in Hrm as [Hc Hk]. apply negb_true_iff in Hc.
        simpl. rewrite Hc. apply IH. exact Hk.
      * rewrite concat_cons_first by apply re_split_aux_not_nil.
        simpl. rewrite (IH 0%nat) by reflexivity. reflexivity.
    + simpl in Hskip. apply andb_true_iff in Hskip as [Hc Hk].
      apply negb_true_iff in Hc. simpl. rewrite Hc. apply IH. exact Hk.
Qed.

Lemma re_split_keeps (keep : char -> bool) (sep_len : str -> option nat)
      (s : str) :
  removes_only keep sep_len ->
  filter keep (concat (re_split sep_len s)) = filter keep s.
Proof.
  intros Hsep. unfold re_split. now apply re_split_aux_keeps.
Qed.

Lemma take_drop_while {A : Type} (p : A -> bool) (l : list A) :
  take_while p l ++ drop_while p l = l.
Proof.
  induction l as [|x l IH]; simpl; [reflexivity|].
  destruct (p x); simpl; [now rewrite IH|reflexivity].
Qed.

Lemma forallb_take_while {A : Type} (p : A -> bool) (l : list A) :
  forallb p (take_while p l) = true.
Proof.
  induction l as [|x l IH]; simpl; [reflexivity|].
  destruct (p x) eqn:Hx; simpl; [now rewrite Hx|reflexivity].
Qed.

Lemma forallb_firstn {A : Type} (p : A -> bool) (n : nat) (l : list A) :
  forallb p l = true -> forallb p (firstn n l) = true.
Proof.
  revert n. induction l as [|x l IH]; intros [|n] H; simpl in *; auto.
  apply andb_true_iff in H as [Hx Hl]. rewrite Hx. simpl. auto.
Qed.

Lemma forallb_pointwise {A : Type} (p q : A -> bool) (l : list A) :
  (forall a, p a = true -> q a = true) ->
  forallb p l = true -> forallb q l = true.
Proof.
  intros Hpq. induction l as [|x l IH]; simpl; [reflexivity|].
  intros H. apply andb_true_iff in H as [Hx Hl].
  rewrite (Hpq x Hx). simpl. auto.
Qed.

Lemma after_last_le (c : char) (l : str) (k : nat) :
  after_last c l = Some k -> (k <= length l)%nat.
Proof.
  revert k. induction l as [|x l IH]; intros k; simpl; [discriminate|].
  destruct (after_last c l) as [j|].
  - intros [= <-]. specialize (IH j eq_refl). lia.
  - destruct (x =? c)%N; [intros [= <-]; lia|discriminate].
Qed.

Lemma firstn_prefix {A : Type} (n : nat) (l1 l2 : list A) :
  (n <= length l1)%nat -> firstn n (l1 ++ l2) = firstn n l1.
Proof.
  intros Hn. rewrite firstn_app.
  replace (n - length l1)%nat with 0%nat by lia.
  simpl. apply app_nil_r.
Qed.

(** A blank-line separator holds whitespace only. *)
Lemma para_sep_removes_whitespace : removes_only not_space para_sep_len.
Proof.
  intros s n Hm. unfold para_sep_len in Hm.
  destruct s as [|c rest]; [discriminate|].
  destruct (c =? NL)%N eqn:Hc; [|discriminate].
  apply N.eqb_eq in Hc. subst c.
  destruct (after_last NL (take_while isspace rest)) as [k|] eqn:Hk;
    [|discriminate].
  injection Hm as <-. apply after_last_le in Hk.
  cbn [firstn forallb]. unfold not_space at 1. rewrite negb_involutive.
  replace (isspace NL) with true by reflexivity. simpl.
  rewrite <- (take_drop_while isspace rest) at 1.
  rewrite firstn_prefix by exact Hk.
  apply forallb_firstn.
  apply (forallb_pointwise isspace); [|apply forallb_take_while].
  intros a Ha. unfold not_space. rewrite negb_involutive. exact Ha.
Qed.

Lemma firstn_two_runs {A : Type} (a b c : list A) :
  firstn (length a + length b) (a ++ b ++ c) = a ++ b.
Proof.
  rewrite firstn_app_2. f_equal.
  rewrite firstn_prefix by lia. apply firstn_all.
Qed.

(** A sentence separator holds sentence punctuation and whitespace
    only. *)
Lemma sentence_sep_removes_punctuation :
  removes_only is_word_char sentence_sep_len.
Proof.
  intros s n Hm. unfold sentence_sep_len in Hm.
  destruct (_ && _); [|discriminate]. injection Hm as <-.
  rewrite <- (take_drop_while is_sentence_end s) at 3.
  rewrite <- (take_drop_while isspace (drop_while is_sentence_end s)) at 2.
  rewrite firstn_two_runs, forallb_app.
  apply andb_true_iff. split.
  - apply (forallb_pointwise is_sentence_end);
      [|apply forallb_take_while].
    intros a Ha. unfold is_word_char. rewrite negb_involutive, Ha.
    apply orb_true_r.
  - apply (forallb_pointwise isspace); [|apply forallb_take_while].
    intros a Ha. unfold is_word_char. rewrite negb_involutive, Ha.
    reflexivity.
Qed.

Lemma filter_drop_while_space (s : str) :
  filter not_space (drop_while isspace s) = filter not_space s.
Proof.
  induction s as [|c s IH]; simpl; [reflexivity|].
  unfold not_space at 2. destruct (isspace c) eqn:Hc; simpl; [exact IH|].
  unfold not_space at 1. rewrite Hc. reflexivity.
Qed.

Lemma filter_strip (s : str) :
  filter not_space (strip s) = filter not_space s.
Proof.
  unfold strip, rstrip, lstrip.
  rewrite filter_rev, filter_drop_while_space, filter_rev, rev_involutive.
  apply filter_drop_while_space.
Qed.

Lemma filter_not_space_nil (s : str) :
  filter not_space s = [] <-> forallb isspace s = true.
Proof.
  induction s as [|c s IH]; simpl; [tauto|].
  unfold not_space at 1. destruct (isspace c); simpl; [exact IH|].
  split; discriminate.
Qed.

Lemma drop_while_starts {A : Type} (p : A -> bool) (l : list A) x t :
  drop_while p l = x :: t -> p x = false.
Proof.
  induction l as [|y l IH]; simpl; [discriminate|].
  destruct (p y) eqn:Hy; [exact IH|]. intros [= -> _]. exact Hy.
Qed.

(** What [strip] returns is empty or has a first and a last character
    that are not whitespace. *)
Lemma strip_trimmed (s : str) :
  strip s <> [] ->
  isspace (hd SP (strip s)) = false /\ isspace (last (strip s) SP) = false.
Proof.
  unfold strip, rstrip, lstrip.
  set (u := drop_while isspace s).
  destruct (drop_while isspace (rev u)) as [|y t] eqn:Hd; [simpl; congruence|].
  intros _. pose proof (drop_while_starts _ _ _ _ Hd) as Hy.
  split.
  - pose proof (take_drop_while isspace (rev u)) as Hsplit.
    rewrite Hd in Hsplit.
    apply (f_equal (@rev char)) in Hsplit.
    rewrite rev_app_distr, rev_involutive in Hsplit.
    destruct (rev (y :: t)) as [|x r] eqn:Hr.
    + apply (f_equal (@length char)) in Hr.
      rewrite length_rev in Hr. discriminate.
    + simpl in Hsplit. simpl. unfold u in Hsplit. symmetry in Hsplit.
      apply (drop_while_starts _ _ _ _ Hsplit).
  - simpl. rewrite last_last. exact Hy.
Qed.

Lemma in_strip_kept (pieces : list str) (p : str) :
  In p (map strip (filter (fun q => truthy (strip q)) pieces)) ->
  exists q, p = strip q /\ strip q <> [].
Proof.
  intros Hin. apply in_map_iff in Hin as (q & <- & Hq).
  apply filter_In in Hq as [_ Hq]. apply truthy_true in Hq.
  exists q. auto.
Qed.

(** X3.  Every paragraph that [_split_into_paragraphs] returns is not
    empty and neither starts nor ends with whitespace. *)
Theorem paragraphs_are_trimmed (text : str) :
  Forall (fun p => p <> []
                   /\ isspace (hd SP p) = false
                   /\ isspace (last p SP) = false)
         (_split_into_paragraphs text).
Proof.
  apply Forall_forall. intros p Hin.
  apply in_strip_kept in Hin as (q & -> & Hne).
  split; [exact Hne|]. now apply strip_trimmed.
Qed.

Lemma filter_kept_pieces (pieces : list str) :
  filter not_space
         (concat (map strip (filter (fun q => truthy (strip q)) pieces)))
  = filter not_space (concat pieces).
Proof.
  induction pieces as [|q pieces IH]; simpl; [reflexivity|].
  rewrite filter_app.
  destruct (truthy (strip q)) eqn:Hq; simpl.
  - rewrite filter_app, filter_strip, IH. reflexivity.
  - rewrite truthy_strip in Hq. apply negb_false_iff in Hq.
    apply filter_not_space_nil in Hq. rewrite Hq, IH. reflexivity.
Qed.

(** X4.  [_split_into_paragraphs] drops whitespace and nothing else: the
    characters of its paragraphs that are not whitespace are those of
    the text, in the same order. *)
Theorem paragraphs_lose_only_whitespace (text : str) :
  filter not_space (concat (_split_into_paragraphs text))
  = filter not_space text.
Proof.
  unfold _split_into_paragraphs.
  rewrite filter_kept_pieces.
  apply re_split_keeps, para_sep_removes_whitespace.
Qed.

(** *** Sentence units *)

Lemma re_split_aux_skip (sep_len : str -> option nat) (k : nat) :
  forall s, re_split_aux sep_len k s = re_split_aux sep_len 0 (skipn k s).
Proof.
  induction k as [|k IH]; intros s; [reflexivity|].
  destruct s as [|c s]; [reflexivity|]. simpl. apply IH.
Qed.

Lemma take_while_app_all {A : Type} (f : A -> bool) (l r : list A) :
  forallb f l = true -> take_while f (l ++ r) = l ++ take_while f r.
Proof.
  induction l as [|x l IH]; simpl; intros H; [reflexivity|].
  apply andb_true_iff in H as [Hx Hl]. rewrite Hx, IH by exact Hl.
  reflexivity.
Qed.

Lemma drop_while_app_all {A : Type} (f : A -> bool) (l r : list A) :
  forallb f l = true -> drop_while f (l ++ r) = drop_while f r.
Proof.
  induction l as [|x l IH]; simpl; intros H; [reflexivity|].
  apply andb_true_iff in H as [Hx Hl]. rewrite Hx. now apply IH.
Qed.

Lemma space_not_sentence_end (c : char) :
  isspace c = true -> is_sentence_end c = false.
Proof.
  intros Hc. unfold is_sentence_end.
  destruct (c =? 46)%N eqn:H1;
    [apply N.eqb_eq in H1; subst c; discriminate|].
  destruct (c =? 33)%N eqn:H2;
    [apply N.eqb_eq in H2; subst c; discriminate|].
  destruct (c =? 63)%N eqn:H3;
    [apply N.eqb_eq in H3; subst c; discriminate|].
  reflexivity.
Qed.

Lemma hd_drop_while {A : Type} (f : A -> bool) (d : A) (l : list A) :
  f d = false -> f (hd d (drop_while f l)) = false.
Proof.
  intros Hd. destruct (drop_while f l) as [|x t] eqn:E; [exact Hd|].
  simpl. exact (drop_while_starts _ _ _ _ E).
Qed.

(** A match of the pattern is the whole run of punctuation and the
    whole run of whitespace behind it. *)
Lemma sentence_sep_len_some (s : str) (n : nat) :
  sentence_sep_len s = Some n ->
  exists p w rest,
    s = p ++ w ++ rest
    /\ p <> [] /\ forallb is_sentence_end p = true
    /\ w <> [] /\ forallb isspace w = true
    /\ isspace (hd HASH rest) = false
    /\ n = (length p + length w)%nat.
Proof.
  unfold sentence_sep_len. intros H.
  destruct (truthy (take_while is_sentence_end s)) eqn:Hp; [|discriminate].
  destruct (truthy (take_while isspace (drop_while is_sentence_end s)))
    eqn:Hw; [|discriminate].
  injection H as <-.
  exists (take_while is_sentence_end s),
    (take_while isspace (drop_while is_sentence_end s)),
    (drop_while isspace (drop_while is_sentence_end s)).
  rewrite !take_drop_while.
  split; [reflexivity|]. split; [now apply truthy_true|].
  split; [apply forallb_take_while|]. split; [now apply truthy_true|].
  split; [apply forallb_take_while|].
  split; [now apply hd_drop_while|reflexivity].
Qed.

Lemma sentence_sep_len_none (s : str) :
  sentence_sep_len s = None -> ~ boundary_at s.
Proof.
  intros Hnone (p & w & rest & -> & Hp & Hpall & Hw & Hwall).
  destruct w as [|c w]; [congruence|].
  simpl in Hwall. apply andb_true_iff in Hwall as [Hc Hwall].
  pose proof (space_not_sentence_end c Hc) as Hc'.
  unfold sentence_sep_len in Hnone.
  rewrite take_while_app_all, drop_while_app_all in Hnone by exact Hpall.
  cbn [app take_while drop_while] in Hnone.
  rewrite Hc' in Hnone. cbn [take_while] in Hnone.
  rewrite Hc in Hnone.
  destruct p; [congruence|]. discriminate.
Qed.

Lemma sentence_split_cons (c : char) (s : str) (units : list str) :
  sentence_split s units -> ~ boundary_at (c :: s) ->
  sentence_split (c :: s) (cons_first c units).
Proof.
  intros Hsplit Hc.
  destruct Hsplit as [s Hnone | u p w rest units Hnone Hp Hpall Hw Hwall
                                  Hrest Hunits].
  - cbn [cons_first]. apply split_end. intros a b Hab.
    destruct a as [|x a]; simpl in Hab.
    + now subst b.
    + injection Hab as _ Hab. exact (Hnone a b Hab).
  - cbn [cons_first].
    apply (split_at (c :: u) p w rest units); try assumption.
    intros a b Hab Hb. destruct a as [|x a]; simpl in Hab.
    + now subst b.
    + injection Hab as _ Hab. exact (Hnone a b Hab Hb).
Qed.

Lemma re_split_sentences (n : nat) :
  forall s, (length s <= n)%nat ->
            sentence_split s (re_split sentence_sep_len s).
Proof.
  unfold re_split.
  induction n as [|n IH]; intros s Hlen.
  - destruct s; [|simpl in Hlen; lia].
    apply split_end. intros a b Hab (p & w & rest & Hb & Hp & _).
    destruct a; [|discriminate]. simpl in Hab. subst b.
    destruct p; [congruence|discriminate].
  - destruct s as [|c s].
    + apply split_end. intros a b Hab (p & w & rest & Hb & Hp & _).
      destruct a; [|discriminate]. simpl in Hab. subst b.
      destruct p; [congruence|discriminate].
    + simpl in Hlen. cbn [re_split_aux].
      destruct (sentence_sep_len (c :: s)) as [m|] eqn:Hm.
      * destruct (sentence_sep_len_some _ _ Hm)
          as (p & w & rest & Hs & Hp & Hpall & Hw & Hwall & Hrest & ->).
        destruct p as [|x p]; [congruence|].
        cbn [length Nat.add]. rewrite re_split_aux_skip.
        injection Hs as -> ->.
        assert (Hskip : skipn (length p + length w) (p ++ w ++ rest) = rest).
        { rewrite app_assoc, <- length_app. now rewrite skipn_app,
            skipn_all, Nat.sub_diag. }
        rewrite Hskip.
        apply (split_at [] (x :: p) w rest); try assumption.
        -- intros a b Hab Hb. destruct a; [|discriminate].
           simpl in Hab. congruence.
        -- apply IH. rewrite !length_app in Hlen.
           destruct w; [congruence|]. simpl in Hlen. lia.
      * apply sentence_split_cons; [apply IH; lia|].
        now apply sentence_sep_len_none.
Qed.

(** X5.  [re.split(r'[.!?]+\s+', para)] cuts the paragraph at its
    sentence boundaries, the leftmost first: every unit but the last is
    the text up to the next place where a run of [.], [!] or [?] is
    followed by whitespace; the whole run of punctuation and the whole
    run of whitespace are dropped, and the last unit has no such place
    in it.  Nothing else is lost: the characters of the units that are
    neither whitespace nor sentence punctuation are those of the
    paragraph, in their order. *)
Theorem sentence_units_between_boundaries (para : str) :
  sentence_split para (split_sentences para)
  /\ filter is_word_char (concat (split_sentences para))
     = filter is_word_char para.
Proof.
  unfold split_sentences. split.
  - now apply (re_split_sentences (length para)).
  - apply re_split_keeps, sentence_sep_removes_punctuation.
Qed.

(** ** Blank documents *)

Lemma split_char_blank (s : str) :
  forallb isspace s = true ->
  Forall (fun line => forallb isspace line = true) (split_char NL s).
Proof.
  induction s as [|c s IH]; simpl; intros H.
  - repeat constructor.
  - apply andb_true_iff in H as [Hc Hs]. specialize (IH Hs).
    destruct (c =? NL)%N; [constructor; [reflexivity|exact IH]|].
    destruct (split_char NL s) as [|p ps]; simpl.
    + repeat constructor. simpl. now rewrite Hc.
    + inversion IH; subst. constructor; [|assumption].
      simpl. rewrite Hc. assumption.
Qed.

Lemma heading_match_blank (line : str) :
  forallb isspace line = true -> heading_match line = None.
Proof.
  intros H. unfold heading_match.
  destruct line as [|a [|b rest]]; try reflexivity.
  destruct (a =? HASH)%N eqn:Ha; [|reflexivity].
  apply N.eqb_eq in Ha. subst a. simpl in H. discriminate.
Qed.

Lemma blank_no_heading_marker (markdown : str) :
  forallb isspace markdown = true -> no_heading_marker markdown.
Proof.
  intros H. unfold no_heading_marker.
  eapply Forall_impl; [|apply (split_char_blank _ H)].
  intros line. apply heading_match_blank.
Qed.

Lemma filter_concat_nil (pieces : list str) :
  filter not_space (concat pieces) = [] ->
  Forall (fun p => forallb isspace p = true) pieces.
Proof.
  induction pieces as [|p pieces IH]; simpl; intros H; [constructor|].
  rewrite filter_app in H. apply app_eq_nil in H as [Hp Hrest].
  constructor; [now apply filter_not_space_nil|auto].
Qed.

Lemma blank_no_paragraphs (text : str) :
  forallb isspace text = true -> _split_into_paragraphs text = [].
Proof.
  intros H. unfold _split_into_paragraphs.
  assert (Hpieces : Forall (fun p => forallb isspace p = true)
                           (re_split para_sep_len text)).
  { apply filter_concat_nil.
    rewrite (re_split_keeps not_space) by apply para_sep_removes_whitespace.
    now apply filter_not_space_nil. }
  induction Hpieces as [|p pieces Hp _ IH]; simpl; [reflexivity|].
  rewrite truthy_strip, Hp. simpl. exact IH.
Qed.

(** X6.  A document that is empty or holds whitespace only yields no
    chunk. *)
Theorem blank_document_no_chunks {token : Type} (encode : str -> list token)
        (cfg : ChunkConfig) (markdown slug url : str) :
  forallb isspace markdown = true ->
  _create_chunks encode cfg markdown slug url = [].
Proof.
  intros H.
  assert (Hsec : sections_of markdown
                 = [ {| heading := []; heading_level := None;
                        content := markdown |} ]).
  { unfold sections_of.
    rewrite split_by_heading_without_heading
      by now apply blank_no_heading_marker.
    rewrite truthy_strip_newline, truthy_strip, H. reflexivity. }
  rewrite create_chunks_by_section, Hsec. simpl.
  unfold section_chunks, process_section. simpl.
  rewrite blank_no_paragraphs by exact H. reflexivity.
Qed.

Lemma blank_document_no_chunks_witness :
  _create_chunks char_encode module_config (py "  ") [] [] = []
  /\ _create_chunks char_encode module_config [] [] [] = [].
Proof.
  split; apply blank_document_no_chunks; reflexivity.
Defined.

(** ** Heading lines and sections *)

Lemma drop_while_idem {A : Type} (p : A -> bool) (l : list A) :
  drop_while p (drop_while p l) = drop_while p l.
Proof.
  induction l as [|x l IH]; simpl; [reflexivity|].
  destruct (p x) eqn:Hx; [exact IH|]. simpl. now rewrite Hx.
Qed.

Lemma strip_nil_iff (s : str) : strip s = [] <-> forallb isspace s = true.
Proof.
  split; intros H.
  - apply truthy_false in H. rewrite truthy_strip in H.
    now apply negb_false_iff in H.
  - apply truthy_false. rewrite truthy_strip, H. reflexivity.
Qed.

Lemma heading_tail_some (rest g : str) :
  heading_tail rest = Some g ->
  exists c tail,
    rest = c :: tail /\ isspace c = true /\ tail <> []
    /\ strip g = strip rest.
Proof.
  unfold heading_tail. intros H.
  pose proof (take_drop_while isspace rest) as Hsplit.
  pose proof (forallb_take_while isspace rest) as Hw.
  destruct (take_while isspace rest) as [|c w'] eqn:Ew; [discriminate|].
  simpl in Hw. apply andb_true_iff in Hw as [Hc Hw'].
  destruct (drop_while isspace rest) as [|x t] eqn:Et.
  - destruct w' as [|c' w'']; [discriminate|]. injection H as <-.
    rewrite app_nil_r in Hsplit. exists c, (c' :: w'').
    split; [now rewrite <- Hsplit|]. split; [exact Hc|].
    split; [discriminate|].
    assert (Hrest : strip rest = []).
    { apply strip_nil_iff. rewrite <- Hsplit. simpl. now rewrite Hc. }
    rewrite Hrest. apply strip_nil_iff. simpl. rewrite andb_true_r.
    assert (Hin : In (last (c :: c' :: w'') SP) (c' :: w'')).
    { change (last (c :: c' :: w'') SP) with (last (c' :: w'') SP).
      destruct (exists_last (l := c' :: w'')) as (l' & a & Hl);
        [discriminate|].
      rewrite Hl, last_last. apply in_or_app. right. now left. }
    rewrite forallb_forall in Hw'. now apply Hw'.
  - injection H as <-. exists c, (w' ++ x :: t).
    split; [now rewrite <- Hsplit|]. split; [exact Hc|].
    split; [destruct w'; discriminate|].
    unfold strip, lstrip. rewrite Et, <- Et, drop_while_idem. reflexivity.
Qed.

Lemma heading_tail_none (rest : str) :
  heading_tail rest = None ->
  forall c tail, rest = c :: tail -> isspace c = true -> tail = [].
Proof.
  unfold heading_tail. intros H c tail -> Hc. simpl in H. rewrite Hc in H.
  destruct (drop_while isspace tail) as [|x t] eqn:Et; [|discriminate].
  destruct (take_while isspace tail) as [|c' w] eqn:Ew; [|discriminate].
  rewrite <- (take_drop_while isspace tail), Ew, Et. reflexivity.
Qed.

Lemma heading_tail_not_space (c : char) (tail : str) :
  isspace c = false -> heading_tail (c :: tail) = None.
Proof. intros Hc. unfold heading_tail. simpl. now rewrite Hc. Qed.

(** X7.  A line of the document starts a section exactly when it is
    [##] or [###], then a whitespace character, then at least one more
    character; the heading is what follows the [#] signs, stripped.  A
    line with one [#] or with four or more is no section heading. *)
Theorem heading_line_shape (line : str) :
  (forall g1 g2,
      heading_match line = Some (g1, g2) ->
      (g1 = [HASH; HASH] \/ g1 = [HASH; HASH; HASH])
      /\ exists c tail,
           line = g1 ++ c :: tail /\ isspace c = true /\ tail <> []
           /\ strip g2 = strip (c :: tail))
  /\ (forall g1 c tail,
         g1 = [HASH; HASH] \/ g1 = [HASH; HASH; HASH] ->
         line = g1 ++ c :: tail -> isspace c = true -> tail <> [] ->
         heading_match line <> None).
Proof.
  split.
  - intros g1 g2 H. unfold heading_match in H.
    destruct line as [|a [|b rest]]; try discriminate.
    destruct ((a =? HASH)%N && (b =? HASH)%N) eqn:Hab; [|discriminate].
    apply andb_true_iff in Hab as [Ha Hb].
    apply N.eqb_eq in Ha, Hb. subst a b.
    destruct (heading_tail rest) as [g|] eqn:Ht.
    + injection H as <- <-.
      destruct (heading_tail_some _ _ Ht) as (c & tail & -> & Hc & Hne & Hs).
      split; [now left|]. exists c, tail. auto.
    + destruct rest as [|c rest']; [discriminate|].
      destruct (c =? HASH)%N eqn:Hc; [|discriminate].
      apply N.eqb_eq in Hc. subst c.
      destruct (heading_tail rest') as [g|] eqn:Ht'; [|discriminate].
      injection H as <- <-.
      destruct (heading_tail_some _ _ Ht') as (c & tail & -> & Hc & Hne & Hs).
      split; [now right|]. exists c, tail. auto.
  - intros g1 c tail Hg -> Hc Hne.
    destruct Hg as [-> | ->]; cbn [app]; unfold heading_match;
      rewrite !N.eqb_refl; cbn [andb].
    + destruct (heading_tail (c :: tail)) eqn:Ht; [discriminate|].
      elim Hne. exact (heading_tail_none _ Ht c tail eq_refl Hc).
    + rewrite (heading_tail_not_space HASH (c :: tail)) by reflexivity.
      destruct (heading_tail (c :: tail)) eqn:Ht; [discriminate|].
      elim Hne. exact (heading_tail_none _ Ht c tail eq_refl Hc).
Qed.

Lemma heading_match_starts (line g1 g2 : str) :
  heading_match line = Some (g1, g2) ->
  (length g1 = 2%nat \/ length g1 = 3%nat)
  /\ exists rest, line = HASH :: HASH :: rest.
Proof.
  intros H. destruct (heading_line_shape line) as [Hshape _].
  destruct (Hshape _ _ H) as ([-> | ->] & c & tail & -> & _).
  - split; [now left|]. eexists. reflexivity.
  - split; [now right|]. eexists. reflexivity.
Qed.

Lemma starts_with_hash_not_blank (rest more : str) :
  truthy (strip ((HASH :: HASH :: rest) ++ more)) = true.
Proof. rewrite truthy_strip. reflexivity. Qed.

Lemma truthy_strip_app (a b : str) :
  truthy (strip a) = true -> truthy (strip (a ++ b)) = true.
Proof.
  rewrite !truthy_strip, forallb_app. intros H.
  apply negb_true_iff in H. now rewrite H.
Qed.

(** The groups of a match: [##] or [###], and a text that strips to what
    follows the [#] signs on the line. *)
Lemma heading_match_groups (line g1 g2 : str) :
  heading_match line = Some (g1, g2) ->
  exists n : nat,
    (n = 2 \/ n = 3)%nat
    /\ g1 = repeat HASH n
    /\ strip g2 = strip (skipn n line).
Proof.
  intros H. unfold heading_match in H.
  destruct line as [|a [|b rest]]; try discriminate.
  destruct ((a =? HASH)%N && (b =? HASH)%N) eqn:Hab; [|discriminate].
  destruct (heading_tail rest) as [g|] eqn:Ht.
  - injection H as <- <-.
    destruct (heading_tail_some _ _ Ht) as (_ & _ & _ & _ & _ & Hs).
    exists 2%nat. split; [now left|]. split; [reflexivity|exact Hs].
  - destruct rest as [|c rest']; [discriminate|].
    destruct (c =? HASH)%N; [|discriminate].
    destruct (heading_tail rest') as [g|] eqn:Ht'; [|discriminate].
    injection H as <- <-.
    destruct (heading_tail_some _ _ Ht') as (_ & _ & _ & _ & _ & Hs).
    exists 3%nat. split; [now right|]. split; [reflexivity|exact Hs].
Qed.

Lemma heading_step_keeps (acc : list Section * Section) (line : str) :
  Forall section_ok (fst acc) /\ section_shape (snd acc) ->
  ~ In NL line ->
  Forall section_ok (fst (heading_step acc line))
  /\ section_shape (snd (heading_step acc line)).
Proof.
  destruct acc as [sections cur]. simpl. intros [Hsecs Hcur] Hline.
  unfold heading_step.
  destruct (heading_match line) as [[g1 g2]|] eqn:Hm.
  - split.
    + destruct (truthy (strip (content cur))) eqn:Hc; simpl; [|exact Hsecs].
      apply Forall_app. split; [exact Hsecs|].
      constructor; [split; assumption|constructor].
    + destruct (heading_match_groups _ _ _ Hm) as (n & Hn & -> & Hs).
      exists [line]. cbn [snd content heading heading_level map concat].
      split; [now rewrite app_nil_r|].
      split; [constructor; [exact Hline|constructor]|].
      right. exists n, line, g2, [].
      split; [reflexivity|]. split; [exact Hn|]. split; [exact Hm|].
      split; [now rewrite repeat_length|]. split; [exact Hs|constructor].
  - simpl. split; [exact Hsecs|].
    destruct Hcur as (lines & Hcontent & Hnl & Hshape).
    exists (lines ++ [line]). cbn [content heading heading_level].
    split; [|split].
    + rewrite map_app, concat_app, Hcontent. simpl.
      now rewrite app_nil_r.
    + apply Forall_app. split; [exact Hnl|].
      constructor; [exact Hline|constructor].
    + destruct Hshape as [(Hlvl & Hh & Hnone)
                         |(n & first & g2 & body & Hl & Hn & Hfirst
                           & Hlvl & Hh & Hnone)].
      * left. split; [exact Hlvl|]. split; [exact Hh|].
        apply Forall_app. split; [exact Hnone|].
        constructor; [exact Hm|constructor].
      * right. exists n, first, g2, (body ++ [line]).
        split; [rewrite Hl; reflexivity|]. split; [exact Hn|].
        split; [exact Hfirst|]. split; [exact Hlvl|].
        split; [exact Hh|].
        apply Forall_app. split; [exact Hnone|].
        constructor; [exact Hm|constructor].
Qed.

(** X8.  Every section that [_split_by_heading] returns has content
    with a character that is not whitespace, and that content is a run
    of lines, each with its newline.  Either the section is the text in
    front of the first heading (empty heading, no level), and none of
    its lines is a heading line; or its first line is its heading line:
    that line matches the heading pattern, the level is the number of
    [#] signs matched (2 or 3), the heading is what follows them on the
    line, stripped, and no other line of the section is a heading
    line. *)
Theorem sections_are_well_formed (markdown : str) :
  Forall section_ok (_split_by_heading markdown).
Proof.
  unfold _split_by_heading.
  pose proof (fold_left_invariant heading_step
                (fun acc => Forall section_ok (fst acc)
                            /\ section_shape (snd acc))
                (fun l => ~ In NL l) heading_step_keeps
                (split_char NL markdown) ([], empty_section)
                (split_char_no_sep NL markdown)) as H.
  destruct (fold_left heading_step (split_char NL markdown)
                      ([], empty_section)) as [sections cur].
  destruct H as [Hs Hc].
  { split; [constructor|]. exists []. split; [reflexivity|].
    split; [constructor|]. left. repeat split. constructor. }
  simpl in Hs, Hc.
  destruct (truthy (strip (content cur))) eqn:Hne; [|exact Hs].
  apply Forall_app. split; [exact Hs|].
  constructor; [split; assumption|constructor].
Qed.

Lemma heading_line_not_blank (line g1 g2 more : str) :
  heading_match line = Some (g1, g2) ->
  truthy (strip (line ++ more)) = true.
Proof.
  intros H. destruct (heading_match_starts _ _ _ H) as (_ & rest & ->).
  apply starts_with_hash_not_blank.
Qed.

(** The loop of [_split_by_heading] keeps all text: the saved
    sections and the current one hold the lines read so far, but for a
    blank text in front of the first heading, which is dropped. *)
Lemma heading_steps_keep_text (lines : list str) :
  forall sections cur dropped,
    forallb isspace dropped = true ->
    (truthy (strip (content cur)) = false -> sections = []) ->
    exists dropped',
      forallb isspace dropped' = true
      /\ (truthy (strip (content
                           (snd (fold_left heading_step lines
                                           (sections, cur))))) = false ->
          fst (fold_left heading_step lines (sections, cur)) = [])
      /\ dropped'
         ++ concat (map content
                        (fst (fold_left heading_step lines (sections, cur))))
         ++ content (snd (fold_left heading_step lines (sections, cur)))
         = dropped ++ concat (map content sections) ++ content cur
           ++ concat (map (fun l => l ++ [NL]) lines).
Proof.
  induction lines as [|line lines IH]; intros sections cur dropped Hd Hcur.
  - exists dropped. simpl. rewrite app_nil_r. auto.
  - cbn [fold_left map concat].
    destruct (heading_match line) as [[g1 g2]|] eqn:Hm.
    + pose proof (heading_line_not_blank _ _ _ [NL] Hm) as Hline.
      destruct (truthy (strip (content cur))) eqn:Hc.
      * replace (heading_step (sections, cur) line)
          with (sections ++ [cur],
                {| heading := strip g2;
                   heading_level := Some (Z.of_nat (length g1));
                   content := line ++ [NL] |})
          by (unfold heading_step; rewrite Hm, Hc; reflexivity).
        destruct (IH (sections ++ [cur])
                     {| heading := strip g2;
                        heading_level := Some (Z.of_nat (length g1));
                        content := line ++ [NL] |} dropped Hd)
          as (d' & Hd' & Hb' & Heq).
        { simpl. rewrite Hline. discriminate. }
        exists d'. split; [exact Hd'|]. split; [exact Hb'|].
        rewrite Heq. simpl. rewrite map_app, concat_app. simpl.
        rewrite <- !app_assoc. reflexivity.
      * replace (heading_step (sections, cur) line)
          with (sections,
                {| heading := strip g2;
                   heading_level := Some (Z.of_nat (length g1));
                   content := line ++ [NL] |})
          by (unfold heading_step; rewrite Hm, Hc; reflexivity).
        specialize (Hcur eq_refl). subst sections.
        destruct (IH []
                     {| heading := strip g2;
                        heading_level := Some (Z.of_nat (length g1));
                        content := line ++ [NL] |}
                     (dropped ++ content cur))
          as (d' & Hd' & Hb' & Heq).
        { rewrite forallb_app, Hd. simpl.
          rewrite truthy_strip in Hc. now apply negb_false_iff in Hc. }
        { simpl. rewrite Hline. discriminate. }
        exists d'. split; [exact Hd'|]. split; [exact Hb'|].
        rewrite Heq. simpl. rewrite <- !app_assoc. reflexivity.
    + replace (heading_step (sections, cur) line)
        with (sections,
              {| heading := heading cur;
                 heading_level := heading_level cur;
                 content := content cur ++ line ++ [NL] |})
        by (unfold heading_step; rewrite Hm; reflexivity).
      destruct (IH sections
                   {| heading := heading cur;
                      heading_level := heading_level cur;
                      content := content cur ++ line ++ [NL] |} dropped Hd)
        as (d' & Hd' & Hb' & Heq).
      { simpl. intros Hblank. apply Hcur.
        destruct (truthy (strip (content cur))) eqn:Hc; [|reflexivity].
        rewrite (truthy_strip_app _ (line ++ [NL]) Hc) in Hblank.
        discriminate. }
      exists d'. split; [exact Hd'|]. split; [exact Hb'|].
      rewrite Heq. simpl. rewrite <- !app_assoc. reflexivity.
Qed.

(** X9.  [_split_by_heading] loses no text but whitespace in front of
    the first heading: the contents of its sections, one after the
    other, are the document and a final newline, without a leading part
    that is all whitespace. *)
Theorem sections_keep_the_text (markdown : str) :
  exists dropped,
    forallb isspace dropped = true
    /\ dropped ++ concat (map content (_split_by_heading markdown))
       = markdown ++ [NL].
Proof.
  destruct (heading_steps_keep_text (split_char NL markdown)
              [] empty_section [] eq_refl (fun _ => eq_refl))
    as (d & Hd & Hblank & Heq).
  unfold _split_by_heading.
  destruct (fold_left heading_step (split_char NL markdown)
                      ([], empty_section)) as [sections cur].
  simpl in Hblank, Heq. rewrite split_char_lines in Heq.
  destruct (truthy (strip (content cur))) eqn:Hc.
  - exists d. split; [exact Hd|].
    rewrite map_app, concat_app. simpl. rewrite app_nil_r. exact Heq.
  - rewrite (Hblank eq_refl) in *. simpl in *.
    exists (d ++ content cur). split.
    + rewrite forallb_app, Hd. simpl.
      rewrite truthy_strip in Hc. now apply negb_false_iff in Hc.
    + rewrite app_nil_r. exact Heq.
Qed.

Lemma heading_line_shape_witness :
  heading_match (py "## Setup guide") <> None
  /\ heading_match (py "### x") <> None.
Proof.
  split.
  - apply (proj2 (heading_line_shape (py "## Setup guide"))
                 [HASH; HASH] SP (py "Setup guide")).
    + left. reflexivity.
    + reflexivity.
    + reflexivity.
    + discriminate.
  - apply (proj2 (heading_line_shape (py "### x"))
                 [HASH; HASH; HASH] SP (py "x")).
    + right. reflexivity.
    + reflexivity.
    + reflexivity.
    + discriminate.
Defined.

(** * [delta.py] *)

Lemma str_eqb_eq (a b : str) : str_eqb a b = true <-> a = b.
Proof.
  unfold str_eqb. destruct (list_eq_dec N.eq_dec a b); split;
    congruence.
Qed.

Lemma str_eqb_refl (a : str) : str_eqb a a = true.
Proof. now apply str_eqb_eq. Qed.

Lemma str_eqb_neq (a b : str) : str_eqb a b = false <-> a <> b.
Proof.
  unfold str_eqb. destruct (list_eq_dec N.eq_dec a b); split;
    congruence.
Qed.

Lemma option_str_eqb_refl (a : option str) : option_str_eqb a a = true.
Proof. destruct a; simpl; [apply str_eqb_refl|reflexivity]. Qed.

(** ** Dicts *)

Lemma dict_get_none {V : Type} (key : str) (d : dict V) :
  ~ In key (map fst d) -> dict_get key d = None.
Proof.
  induction d as [|[k v] d IH]; simpl; intros Hk; [reflexivity|].
  destruct (str_eqb key k) eqn:E.
  - apply str_eqb_eq in E. subst. tauto.
  - apply IH. tauto.
Qed.

Lemma dict_get_in {V : Type} (key : str) (v : V) (d : dict V) :
  dict_wf d -> In (key, v) d -> dict_get key d = Some v.
Proof.
  unfold dict_wf.
  induction d as [|[k w] d IH]; simpl; intros Hwf Hin; [contradiction|].
  inversion Hwf as [|? ? Hk Hd]; subst.
  destruct Hin as [[= -> ->]|Hin].
  - now rewrite str_eqb_refl.
  - destruct (str_eqb key k) eqn:E; [|auto].
    apply str_eqb_eq in E. subst. elim Hk.
    apply in_map_iff. exists (k, v). auto.
Qed.

Lemma dict_set_fresh {V : Type} (key : str) (v : V) (d : dict V) :
  ~ In key (map fst d) -> dict_set key v d = d ++ [(key, v)].
Proof.
  induction d as [|[k w] d IH]; simpl; intros Hk; [reflexivity|].
  destruct (str_eqb key k) eqn:E.
  - apply str_eqb_eq in E. subst. tauto.
  - rewrite IH by tauto. reflexivity.
Qed.

Lemma dict_get_set_same {V : Type} (key : str) (v : V) (d : dict V) :
  dict_get key (dict_set key v d) = Some v.
Proof.
  induction d as [|[k w] d IH]; simpl.
  - now rewrite str_eqb_refl.
  - destruct (str_eqb key k) eqn:E; simpl; rewrite E; [reflexivity|exact IH].
Qed.

Lemma dict_get_set_other {V : Type} (key other : str) (v : V) (d : dict V) :
  key <> other -> dict_get key (dict_set other v d) = dict_get key d.
Proof.
  intros Hne. induction d as [|[k w] d IH]; simpl.
  - apply str_eqb_neq in Hne. now rewrite Hne.
  - destruct (str_eqb other k) eqn:E; simpl.
    + apply str_eqb_eq in E. subst k.
      apply str_eqb_neq in Hne. now rewrite Hne.
    + destruct (str_eqb key k); [reflexivity|exact IH].
Qed.

(** After [d.update(other)] every key of [other] has the value that
    [other] gives it. *)
Lemma dict_get_update {V : Type} (other : dict V) :
  dict_wf other ->
  forall (d : dict V) key v,
    In (key, v) other -> dict_get key (dict_update d other) = Some v.
Proof.
  unfold dict_wf, dict_update.
  induction other as [|[k w] other IH]; simpl; intros Hwf d key v Hin;
    [contradiction|].
  inversion Hwf as [|? ? Hk Hrest]; subst.
  destruct Hin as [[= -> ->]|Hin]; [|now apply IH].
  clear IH. revert d. induction other as [|[k' w'] other IH]; intros d.
  - simpl. apply dict_get_set_same.
  - simpl. simpl in Hk. inversion Hrest; subst.
    assert (Hne : key <> k') by (intros ->; apply Hk; now left).
    assert (Hswap : forall d0 : dict V,
               dict_get key d0 = Some v ->
               dict_get key
                 (fold_left (fun acc kv => dict_set (fst kv) (snd kv) acc)
                            other (dict_set k' w' d0)) = Some v).
    { clear IH. intros d0 Hd0.
      assert (Hother : ~ In key (map fst other)) by tauto.
      assert (Hgen : forall l (d1 : dict V),
                 ~ In key (map fst l) -> dict_get key d1 = Some v ->
                 dict_get key
                   (fold_left (fun acc kv => dict_set (fst kv) (snd kv) acc)
                              l d1) = Some v).
      { induction l as [|[a b] l IHl]; simpl; intros d1 Hl Hd1; [exact Hd1|].
        simpl in Hl. apply IHl; [tauto|].
        rewrite dict_get_set_other
          by (intros ->; apply Hl; now left).
        exact Hd1. }
      apply Hgen; [exact Hother|].
      rewrite dict_get_set_other by exact Hne. exact Hd0. }
    apply Hswap. apply dict_get_set_same.
Qed.

(** ** [detect_changes] *)

Lemma has_status_exclusive (index : dict Metadata) (item : str * Metadata) :
  forall a b, has_status index a item = true ->
              has_status index b item = true -> a = b.
Proof.
  intros a b. unfold has_status.
  destruct (status_of index item), a, b; congruence.
Qed.

Lemma detect_step_status (index : dict Metadata) (acc : Changes)
      (item : str * Metadata) :
  detect_step index acc item
  = match status_of index item with
    | IsNew =>
        {| new_slugs := new_slugs acc ++ [fst item];
           updated_slugs := updated_slugs acc;
           unchanged_slugs := unchanged_slugs acc |}
    | IsUpdated =>
        {| new_slugs := new_slugs acc;
           updated_slugs := updated_slugs acc ++ [fst item];
           unchanged_slugs := unchanged_slugs acc |}
    | IsUnchanged =>
        {| new_slugs := new_slugs acc;
           updated_slugs := updated_slugs acc;
           unchanged_slugs := unchanged_slugs acc ++ [fst item] |}
    end.
Proof.
  destruct item as [slug metadata]. unfold detect_step, status_of. simpl.
  destruct (dict_get slug index) as [[|e old]|]; try reflexivity.
  destruct (option_str_eqb _ _); reflexivity.
Qed.

Lemma detect_fold (index : dict Metadata) (items : dict Metadata) :
  forall acc,
    fold_left (detect_step index) items acc
    = {| new_slugs :=
           new_slugs acc
           ++ map fst (filter (has_status index IsNew) items);
         updated_slugs :=
           updated_slugs acc
           ++ map fst (filter (has_status index IsUpdated) items);
         unchanged_slugs :=
           unchanged_slugs acc
           ++ map fst (filter (has_status index IsUnchanged) items) |}.
Proof.
  induction items as [|item items IH]; intros acc; simpl.
  - rewrite !app_nil_r. destruct acc; reflexivity.
  - rewrite IH, detect_step_status. unfold has_status.
    destruct (status_of index item); simpl; rewrite <- ?app_assoc;
      reflexivity.
Qed.

Lemma option_str_eqb_eq (a b : option str) :
  option_str_eqb a b = true <-> a = b.
Proof.
  destruct a as [x|], b as [y|]; simpl; try (split; congruence).
  rewrite str_eqb_eq. split; congruence.
Qed.

Lemma detect_changes_filters (index scraped : dict Metadata) :
  detect_changes index scraped
  = {| new_slugs := map fst (filter (has_status index IsNew) scraped);
       updated_slugs :=
         map fst (filter (has_status index IsUpdated) scraped);
       unchanged_slugs :=
         map fst (filter (has_status index IsUnchanged) scraped) |}.
Proof. unfold detect_changes. now rewrite detect_fold. Qed.

Lemma in_status_list (index scraped : dict Metadata) (st : Status)
      (slug : str) :
  In slug (map fst (filter (has_status index st) scraped))
  <-> exists metadata,
        In (slug, metadata) scraped
        /\ status_of index (slug, metadata) = st.
Proof.
  rewrite in_map_iff. split.
  - intros ([k m] & Hk & Hin). simpl in Hk. subst k.
    apply filter_In in Hin as [Hin Hst]. exists m. split; [exact Hin|].
    unfold has_status in Hst.
    destruct (status_of index (slug, m)), st; congruence.
  - intros (m & Hin & Hst). exists (slug, m). split; [reflexivity|].
    apply filter_In. split; [exact Hin|].
    unfold has_status. rewrite Hst. destruct st; reflexivity.
Qed.

(** X10.  What [detect_changes] reports.  A slug is in the list of new
    slugs exactly when it was scraped and the index has no entry for it,
    or an empty one; in the list of updated slugs exactly when the index
    has an entry whose hash (["hash"], or [""] without that key)
    differs from the scraped one; in the list of unchanged slugs
    exactly when the two hashes are equal. *)
Theorem detect_changes_membership (index scraped : dict Metadata)
        (slug : str) :
  let changes := detect_changes index scraped in
  (In slug (new_slugs changes)
   <-> exists metadata,
         In (slug, metadata) scraped
         /\ (dict_get slug index = None \/ dict_get slug index = Some []))
  /\ (In slug (updated_slugs changes)
      <-> exists metadata old,
            In (slug, metadata) scraped
            /\ dict_get slug index = Some old /\ old <> []
            /\ metadata_hash old <> metadata_hash metadata)
  /\ (In slug (unchanged_slugs changes)
      <-> exists metadata old,
            In (slug, metadata) scraped
            /\ dict_get slug index = Some old /\ old <> []
            /\ metadata_hash old = metadata_hash metadata).
Proof.
  cbv zeta. rewrite detect_changes_filters. cbn [new_slugs updated_slugs
                                                unchanged_slugs].
  rewrite !in_status_list.
  assert (Hst : forall m,
             match status_of index (slug, m) with
             | IsNew => dict_get slug index = None
                        \/ dict_get slug index = Some []
             | IsUpdated =>
                 exists old, dict_get slug index = Some old /\ old <> []
                             /\ metadata_hash old <> metadata_hash m
             | IsUnchanged =>
                 exists old, dict_get slug index = Some old /\ old <> []
                             /\ metadata_hash old = metadata_hash m
             end).
  { intros m. unfold status_of. cbn [fst snd].
    destruct (dict_get slug index) as [[|e old]|]; auto.
    destruct (option_str_eqb (metadata_hash (e :: old)) (metadata_hash m))
      eqn:E; cbv beta iota.
    - apply option_str_eqb_eq in E. exists (e :: old).
      split; [reflexivity|]. split; [discriminate|]. exact E.
    - exists (e :: old).
      split; [reflexivity|]. split; [discriminate|].
      intros Heq. apply option_str_eqb_eq in Heq. congruence. }
  repeat split.
  - intros (m & Hin & Hs). exists m. split; [exact Hin|].
    specialize (Hst m). rewrite Hs in Hst. exact Hst.
  - intros (m & Hin & Hidx). exists m. split; [exact Hin|].
    specialize (Hst m).
    destruct (status_of index (slug, m)); [reflexivity| |];
      destruct Hst as (old & Hold & Hne & _);
      destruct Hidx as [Hidx|Hidx]; congruence.
  - intros (m & Hin & Hs). specialize (Hst m). rewrite Hs in Hst.
    destruct Hst as (old & H). exists m, old. tauto.
  - intros (m & old & Hin & Hold & Hne & Hh). exists m. split; [exact Hin|].
    specialize (Hst m).
    destruct (status_of index (slug, m)).
    + destruct Hst; congruence.
    + reflexivity.
    + destruct Hst as (old' & Hold' & _ & Heq). congruence.
  - intros (m & Hin & Hs). specialize (Hst m). rewrite Hs in Hst.
    destruct Hst as (old & H). exists m, old. tauto.
  - intros (m & old & Hin & Hold & Hne & Hh). exists m. split; [exact Hin|].
    specialize (Hst m).
    destruct (status_of index (slug, m)).
    + destruct Hst; congruence.
    + destruct Hst as (old' & Hold' & _ & Hdiff). congruence.
    + reflexivity.
Qed.

(** X11.  Every scraped article is counted once: the lengths of the
    three lists add up to the number of scraped articles (the counts
    [added], [updated], [skipped] and [scraped] of [main]). *)
Theorem detect_changes_counts_add_up (index scraped : dict Metadata) :
  let changes := detect_changes index scraped in
  (length (new_slugs changes) + length (updated_slugs changes)
   + length (unchanged_slugs changes) = length scraped)%nat.
Proof.
  rewrite detect_changes_filters. simpl.
  rewrite !length_map.
  induction scraped as [|item scraped IH]; simpl; [reflexivity|].
  assert (Hcase :
            (has_status index IsNew item, has_status index IsUpdated item,
             has_status index IsUnchanged item) = (true, false, false)
            \/ (has_status index IsNew item, has_status index IsUpdated item,
                has_status index IsUnchanged item) = (false, true, false)
            \/ (has_status index IsNew item, has_status index IsUpdated item,
                has_status index IsUnchanged item) = (false, false, true)).
  { unfold has_status. destruct (status_of index item); auto. }
  destruct Hcase as [H|[H|H]]; injection H as -> -> ->; simpl; lia.
Qed.

(** ** [get_articles_to_upload] *)

Lemma wf_same_value {V : Type} (d : dict V) (k : str) (v w : V) :
  dict_wf d -> In (k, v) d -> In (k, w) d -> v = w.
Proof.
  intros Hwf Hv Hw.
  pose proof (dict_get_in k v d Hwf Hv) as H1.
  pose proof (dict_get_in k w d Hwf Hw) as H2. congruence.
Qed.

Lemma in_keys {V : Type} (d : dict V) (k : str) :
  In k (map fst d) <-> exists v, In (k, v) d.
Proof.
  rewrite in_map_iff. split.
  - intros ([k' v] & Hk & Hin). simpl in Hk. subst. eauto.
  - intros (v & Hin). exists (k, v). auto.
Qed.

Lemma wf_filter {V : Type} (p : str * V -> bool) (d : dict V) :
  dict_wf d -> dict_wf (filter p d).
Proof.
  unfold dict_wf. induction d as [|[k v] d IH]; simpl; intros Hwf;
    [constructor|].
  inversion Hwf as [|? ? Hk Hd]; subst.
  destruct (p (k, v)); simpl; [|auto].
  constructor; [|auto]. intros Hin. apply Hk.
  apply in_keys in Hin as (w & Hin). apply filter_In in Hin as [Hin _].
  apply in_keys. eauto.
Qed.

Lemma wf_app {V : Type} (d1 d2 : dict V) :
  dict_wf d1 -> dict_wf d2 ->
  (forall k, In k (map fst d1) -> ~ In k (map fst d2)) ->
  dict_wf (d1 ++ d2).
Proof.
  unfold dict_wf. induction d1 as [|[k v] d1 IH]; simpl; intros H1 H2 Hdis;
    [exact H2|].
  inversion H1 as [|? ? Hk Hd]; subst. constructor.
  - rewrite map_app, in_app_iff. intros [Hin|Hin]; [tauto|].
    apply (Hdis k); auto.
  - apply IH; auto.
Qed.

(** The loop of [get_articles_to_upload] over the keys of items that
    are in the scrape and not yet in [to_upload] appends these items. *)
Lemma collect_uploads_appends (scraped : dict Metadata) :
  dict_wf scraped ->
  forall (items to_upload : dict Metadata),
    (forall k v, In (k, v) items -> In (k, v) scraped) ->
    dict_wf (to_upload ++ items) ->
    collect_uploads scraped to_upload (map fst items)
    = Some (to_upload ++ items).
Proof.
  intros Hwf items.
  induction items as [|[k v] items IH]; intros to_upload Hsub Hfresh; simpl.
  - now rewrite app_nil_r.
  - rewrite (dict_get_in k v scraped Hwf) by (apply Hsub; now left).
    assert (Hk : ~ In k (map fst to_upload)).
    { unfold dict_wf in Hfresh. rewrite map_app in Hfresh. simpl in Hfresh.
      apply NoDup_remove_2 in Hfresh. rewrite in_app_iff in Hfresh. tauto. }
    rewrite (dict_set_fresh k v to_upload Hk).
    rewrite IH.
    + now rewrite <- app_assoc.
    + intros k' v' Hin. apply Hsub. now right.
    + now rewrite <- app_assoc.
Qed.

(** X12.  For a scrape with distinct slugs, [get_articles_to_upload]
    raises no [KeyError] and returns the new articles followed by the
    updated ones, each group in the order of the scrape and each slug
    with its scraped metadata; an unchanged article is not in it. *)
Theorem articles_to_upload_are_new_then_updated
        (index scraped : dict Metadata) :
  dict_wf scraped ->
  get_articles_to_upload index scraped
  = Some (filter (has_status index IsNew) scraped
          ++ filter (has_status index IsUpdated) scraped).
Proof.
  intros Hwf. unfold get_articles_to_upload.
  rewrite detect_changes_filters. cbn [new_slugs updated_slugs].
  rewrite <- map_app.
  apply (collect_uploads_appends scraped Hwf _ []).
  - intros k v Hin. apply in_app_iff in Hin.
    destruct Hin as [Hin|Hin]; apply filter_In in Hin; tauto.
  - simpl. apply wf_app; try now apply wf_filter.
    intros k Hn Hu.
    apply in_keys in Hn as (v & Hv). apply in_keys in Hu as (w & Hw).
    apply filter_In in Hv as [Hv Hsv]. apply filter_In in Hw as [Hw Hsw].
    rewrite (wf_same_value scraped k v w Hwf Hv Hw) in Hsv.
    pose proof (has_status_exclusive _ _ _ _ Hsv Hsw). discriminate.
Qed.

Lemma filter_all_status (index : dict Metadata) (st : Status)
      (items : dict Metadata) :
  Forall (fun item => status_of index item = st) items ->
  filter (has_status index st) items = items
  /\ forall st', st' <> st -> filter (has_status index st') items = [].
Proof.
  induction 1 as [|item items Hitem _ [IHsame IHother]]; simpl;
    [split; reflexivity|].
  split.
  - unfold has_status at 1. rewrite Hitem, IHsame.
    destruct st; reflexivity.
  - intros st' Hne. unfold has_status at 1. rewrite Hitem, (IHother st' Hne).
    destruct st, st'; congruence.
Qed.

(** X13.  With an empty index (a first run) every scraped article is
    new, and the articles to upload are the whole scrape, in its
    order. *)
Theorem first_run_uploads_everything (scraped : dict Metadata) :
  dict_wf scraped ->
  detect_changes [] scraped
  = {| new_slugs := map fst scraped; updated_slugs := [];
       unchanged_slugs := [] |}
  /\ get_articles_to_upload [] scraped = Some scraped.
Proof.
  intros Hwf.
  assert (Hall : Forall (fun item => status_of [] item = IsNew) scraped).
  { apply Forall_forall. intros item _. reflexivity. }
  destruct (filter_all_status [] IsNew scraped Hall) as [Hsame Hother].
  split.
  - rewrite detect_changes_filters, Hsame, !Hother by discriminate.
    reflexivity.
  - rewrite articles_to_upload_are_new_then_updated by exact Hwf.
    rewrite Hsame, Hother by discriminate. now rewrite app_nil_r.
Qed.

(** X14.  Once the index has been updated with a scrape
    ([index.update(scraped_articles)] in [main]), the same scrape is all
    unchanged and nothing is left to upload, whatever the index held
    before; the scrape has distinct slugs and no empty metadata. *)
Theorem rerun_after_index_update_uploads_nothing
        (index scraped : dict Metadata) :
  dict_wf scraped ->
  Forall (fun item => snd item <> []) scraped ->
  detect_changes (dict_update index scraped) scraped
  = {| new_slugs := []; updated_slugs := [];
       unchanged_slugs := map fst scraped |}
  /\ get_articles_to_upload (dict_update index scraped) scraped = Some [].
Proof.
  intros Hwf Hne.
  assert (Hall : Forall (fun item =>
                           status_of (dict_update index scraped) item
                           = IsUnchanged) scraped).
  { apply Forall_forall. intros [k m] Hin.
    rewrite Forall_forall in Hne. specialize (Hne _ Hin). simpl in Hne.
    unfold status_of. cbn [fst snd].
    rewrite (dict_get_update scraped Hwf index k m Hin).
    destruct m as [|e m]; [congruence|].
    now rewrite option_str_eqb_refl. }
  destruct (filter_all_status _ IsUnchanged scraped Hall) as [Hsame Hother].
  split.
  - rewrite detect_changes_filters, Hsame, !Hother by discriminate.
    reflexivity.
  - rewrite articles_to_upload_are_new_then_updated by exact Hwf.
    rewrite !Hother by discriminate. reflexivity.
Qed.

(** * [scraper.py]: [_normalize_markdown] *)

Lemma re_sub_aux_keeps (keep : char -> bool)
      (sep_len : str -> option nat) (repl : str) :
  removes_only keep sep_len ->
  filter keep repl = [] ->
  forall s skip,
    forallb (fun c => negb (keep c)) (firstn skip s) = true ->
    filter keep (re_sub_aux sep_len repl skip s) = filter keep s.
Proof.
  intros Hsep Hrepl s. induction s as [|c s IH]; intros skip Hskip.
  - reflexivity.
  - destruct skip as [|k].
    + cbn [re_sub_aux].
      destruct (sep_len (c :: s)) as [[|k]|] eqn:Hm.
      * simpl. rewrite (IH 0%nat) by reflexivity. reflexivity.
      * pose proof (Hsep _ _ Hm) as Hrm. simpl in Hrm.
        apply andb_true_iff in Hrm as [Hc Hk]. apply negb_true_iff in Hc.
        rewrite filter_app, Hrepl. simpl. rewrite Hc. apply IH. exact Hk.
      * simpl. rewrite (IH 0%nat) by reflexivity. reflexivity.
    + simpl in Hskip. apply andb_true_iff in Hskip as [Hc Hk].
      apply negb_true_iff in Hc. simpl. rewrite Hc. apply IH. exact Hk.
Qed.

Lemma is_newline_space (c : char) : is_newline c = true -> isspace c = true.
Proof.
  unfold is_newline. intros H. apply N.eqb_eq in H. subst. reflexivity.
Qed.

Lemma newline_run_removes_whitespace :
  removes_only not_space newline_run_len.
Proof.
  intros s n Hm. unfold newline_run_len in Hm.
  destruct (_ <=? _)%nat; [|discriminate]. injection Hm as <-.
  rewrite <- (take_drop_while is_newline s) at 2.
  rewrite firstn_prefix by lia. rewrite firstn_all.
  apply (forallb_pointwise is_newline); [|apply forallb_take_while].
  intros a Ha. unfold not_space. rewrite negb_involutive.
  now apply is_newline_space.
Qed.

Lemma CR_is_space : isspace CR = true.
Proof. reflexivity. Qed.

Lemma replace_crlf_two (a b : char) (t : str) :
  replace_crlf (a :: b :: t)
  = if ((a =? CR) && (b =? NL))%N then NL :: replace_crlf t
    else a :: replace_crlf (b :: t).
Proof. reflexivity. Qed.

Lemma filter_replace_crlf (s : str) :
  filter not_space (replace_crlf s) = filter not_space s.
Proof.
  assert (H : forall n s, (length s <= n)%nat ->
                          filter not_space (replace_crlf s)
                          = filter not_space s).
  { induction n as [|n IH]; intros [|a [|b t]] Hlen;
      try reflexivity; try (simpl in Hlen; lia).
    rewrite replace_crlf_two.
    destruct ((a =? CR)%N && (b =? NL)%N) eqn:E.
    - apply andb_true_iff in E as [Ha Hb].
      apply N.eqb_eq in Ha, Hb. subst a b.
      cbn [filter]. replace (not_space NL) with false by reflexivity.
      replace (not_space CR) with false by reflexivity.
      apply IH. simpl in Hlen. lia.
    - cbn [filter]. rewrite (IH (b :: t)) by (simpl in *; lia).
      reflexivity. }
  apply (H (length s)). lia.
Qed.

Lemma filter_replace_cr (s : str) :
  filter not_space (replace_cr s) = filter not_space s.
Proof.
  unfold replace_cr. induction s as [|c s IH]; simpl; [reflexivity|].
  destruct (c =? CR)%N eqn:E.
  - apply N.eqb_eq in E. subst c. simpl. exact IH.
  - rewrite IH. reflexivity.
Qed.

(** X15.  [_normalize_markdown] changes whitespace only: the characters
    of its result that are not whitespace are those of the text, in the
    same order. *)
Theorem normalize_changes_only_whitespace (text : str) :
  filter not_space (_normalize_markdown text) = filter not_space text.
Proof.
  unfold _normalize_markdown, re_sub.
  rewrite filter_strip, filter_replace_cr, filter_replace_crlf.
  apply re_sub_aux_keeps; try reflexivity.
  apply newline_run_removes_whitespace.
Qed.

Lemma in_drop_while {A : Type} (p : A -> bool) (l : list A) (x : A) :
  In x (drop_while p l) -> In x l.
Proof.
  induction l as [|y l IH]; simpl; [auto|].
  destruct (p y); simpl; auto.
Qed.

Lemma in_strip (s : str) (x : char) : In x (strip s) -> In x s.
Proof.
  unfold strip, rstrip, lstrip. intros H.
  apply in_rev in H. apply in_drop_while in H. apply in_rev in H.
  now apply in_drop_while in H.
Qed.

(** X16.  The result of [_normalize_markdown] holds no carriage return,
    and it is empty or starts and ends with a character that is not
    whitespace. *)
Theorem normalize_is_trimmed_without_cr (text : str) :
  ~ In CR (_normalize_markdown text)
  /\ (_normalize_markdown text <> [] ->
      isspace (hd SP (_normalize_markdown text)) = false
      /\ isspace (last (_normalize_markdown text) SP) = false).
Proof.
  split.
  - unfold _normalize_markdown. intros H. apply in_strip in H.
    unfold replace_cr in H. apply in_map_iff in H as (c & Hc & _).
    destruct (c =? CR)%N eqn:E; [discriminate|].
    apply N.eqb_neq in E. congruence.
  - unfold _normalize_markdown. apply strip_trimmed.
Qed.

(** * The overlap text *)

(** X17.  What [_create_chunks] carries over from a flushed buffer.  An
    overlap source within [OVERLAP_TOKENS] is kept as it is.  A longer
    one, with [w] words and [n] tokens, is cut to its last
    floor(OVERLAP_TOKENS * w / n) words, joined by single spaces,
    whenever that number is at least 1; the number is below [w]. *)
Theorem overlap_is_the_last_words {token : Type}
        (encode : str -> list token) (cfg : ChunkConfig) (source : str) :
  0 <= OVERLAP_TOKENS cfg ->
  (_count_tokens encode source <= OVERLAP_TOKENS cfg ->
   trim_overlap encode cfg source = source)
  /\ (_count_tokens encode source > OVERLAP_TOKENS cfg ->
      let t := (OVERLAP_TOKENS cfg * Z.of_nat (length (split_ws source)))
               / _count_tokens encode source in
      1 <= t ->
      t < Z.of_nat (length (split_ws source))
      /\ trim_overlap encode cfg source
         = join [SP] (last_n (Z.to_nat t) (split_ws source))
      /\ length (last_n (Z.to_nat t) (split_ws source)) = Z.to_nat t).
Proof.
  intros H0. split.
  - intros Hle. unfold trim_overlap.
    destruct (_ >? _) eqn:Hc; [apply gtb_true in Hc; lia|reflexivity].
  - intros Hgt t Ht.
    destruct (target_words_floor _ encode cfg source H0 Hgt) as [Hfloor _].
    fold t in Hfloor.
    assert (Hlt : t < Z.of_nat (length (split_ws source))).
    { assert (Hw : 0 < Z.of_nat (length (split_ws source))).
      { assert (Hcases : Z.of_nat (length (split_ws source)) = 0
                         \/ 0 < Z.of_nat (length (split_ws source)))
          by lia.
        destruct Hcases as [E|E]; [|exact E]. exfalso.
        unfold t in Ht. rewrite E, Z.mul_0_r in Ht.
        rewrite Z.div_0_l in Ht by lia. lia. }
      unfold t. apply Z.div_lt_upper_bound; [lia|].
      set (w := Z.of_nat (length (split_ws source))) in *.
      set (n := _count_tokens encode source) in *.
      clearbody w n. nia. }
    split; [exact Hlt|]. split.
    + rewrite <- Hfloor. apply trim_overlap_last_words; [exact Hgt|].
      rewrite Hfloor. exact Ht.
    + unfold last_n. rewrite length_skipn. lia.
Qed.

Lemma overlap_is_the_last_words_witness :
  trim_overlap char_encode module_config forty_words
  = join [SP] (last_n 16 (split_ws forty_words)).
Proof.
  assert (H0 : 0 <= OVERLAP_TOKENS module_config) by (simpl; lia).
  destruct (overlap_is_the_last_words char_encode module_config
              forty_words H0) as [_ Hlong].
  assert (Hgt : _count_tokens char_encode forty_words
                > OVERLAP_TOKENS module_config)
    by (vm_compute; reflexivity).
  specialize (Hlong Hgt).
  assert (Ht : (OVERLAP_TOKENS module_config
                * Z.of_nat (length (split_ws forty_words)))
               / _count_tokens char_encode forty_words = 16)
    by (vm_compute; reflexivity).
  cbv zeta in Hlong. rewrite Ht in Hlong.
  destruct Hlong as (_ & Htrim & _); [lia|]. exact Htrim.
Defined.

(** ** Normalising twice *)

Lemma re_sub_aux_skip (sep_len : str -> option nat) (repl : str) (s : str) :
  forall k,
    re_sub_aux sep_len repl k s
    = re_sub_aux sep_len repl 0 (skipn k s).
Proof.
  induction s as [|c s IH]; intros [|k]; try reflexivity.
  cbn [re_sub_aux skipn]. apply IH.
Qed.

Lemma skipn_take_while {A : Type} (p : A -> bool) (l : list A) :
  skipn (length (take_while p l)) l = drop_while p l.
Proof.
  induction l as [|x l IH]; simpl; [reflexivity|].
  destruct (p x); simpl; [exact IH|reflexivity].
Qed.

(** How the substitution of [\n{3,}] by two newlines proceeds. *)
Lemma collapse_cons (c : char) (s : str) :
  re_sub newline_run_len [NL; NL] (c :: s)
  = if (3 <=? leading_newlines (c :: s))%nat
    then NL :: NL
         :: re_sub newline_run_len [NL; NL]
                   (drop_while is_newline (c :: s))
    else c :: re_sub newline_run_len [NL; NL] s.
Proof.
  unfold re_sub at 1. cbn [re_sub_aux]. unfold newline_run_len.
  fold (leading_newlines (c :: s)).
  destruct (3 <=? leading_newlines (c :: s))%nat eqn:E; [|reflexivity].
  apply Nat.leb_le in E.
  destruct (leading_newlines (c :: s)) as [|k] eqn:Hk; [lia|].
  rewrite re_sub_aux_skip. unfold re_sub. simpl app. do 3 f_equal.
  rewrite <- skipn_take_while. fold (leading_newlines (c :: s)).
  rewrite Hk. reflexivity.
Qed.

Lemma leading_drop_while (s : str) :
  leading_newlines (drop_while is_newline s) = 0%nat.
Proof.
  unfold leading_newlines.
  induction s as [|c s IH]; simpl; [reflexivity|].
  destruct (is_newline c) eqn:E; [exact IH|]. simpl. now rewrite E.
Qed.

Lemma leading_cons (c : char) (s : str) :
  leading_newlines (c :: s)
  = if is_newline c then S (leading_newlines s) else 0%nat.
Proof. unfold leading_newlines. simpl. destruct (is_newline c); reflexivity. Qed.

Lemma has_triple_cons (a : char) (s : str) :
  has_triple_newline (a :: s)
  = (is_newline a && (2 <=? leading_newlines s)%nat)
    || has_triple_newline s.
Proof.
  destruct s as [|b [|c r]].
  - simpl. now rewrite andb_false_r.
  - simpl. rewrite leading_cons.
    destruct (is_newline b); simpl; now rewrite andb_false_r.
  - cbn [has_triple_newline]. rewrite !leading_cons.
    destruct (is_newline a), (is_newline b), (is_newline c); reflexivity.
Qed.

Lemma drop_while_length {A : Type} (p : A -> bool) (l : list A) :
  (length (drop_while p l) <= length l)%nat.
Proof.
  induction l as [|x l IH]; simpl; [lia|]. destruct (p x); simpl; lia.
Qed.

(** After the substitution the text starts with as many newlines as
    before, two at most, and holds no three newlines in a row. *)
Lemma collapse_no_triple (s : str) :
  leading_newlines (re_sub newline_run_len [NL; NL] s)
  = Nat.min (leading_newlines s) 2
  /\ has_triple_newline (re_sub newline_run_len [NL; NL] s) = false.
Proof.
  assert (H : forall n s, (length s <= n)%nat ->
             leading_newlines (re_sub newline_run_len [NL; NL] s)
             = Nat.min (leading_newlines s) 2
             /\ has_triple_newline (re_sub newline_run_len [NL; NL] s)
                = false).
  { clear s. induction n as [|n IH]; intros [|c s] Hlen;
      try (split; reflexivity); try (simpl in Hlen; lia).
    rewrite collapse_cons.
    destruct (3 <=? leading_newlines (c :: s))%nat eqn:E.
    - apply Nat.leb_le in E.
      assert (Hc : is_newline c = true).
      { rewrite leading_cons in E. destruct (is_newline c); [reflexivity|lia]. }
      assert (Hd : leading_newlines
                     (re_sub newline_run_len [NL; NL]
                             (drop_while is_newline (c :: s))) = 0%nat
                   /\ has_triple_newline
                        (re_sub newline_run_len [NL; NL]
                                (drop_while is_newline (c :: s))) = false).
      { destruct (IH (drop_while is_newline (c :: s))) as [Hl Ht].
        - simpl. rewrite Hc. pose proof (drop_while_length is_newline s).
          simpl in Hlen. lia.
        - rewrite leading_drop_while in Hl. split; [exact Hl|exact Ht]. }
      destruct Hd as [Hl Ht].
      rewrite leading_cons, Hc in E.
      split.
      + rewrite !leading_cons, Hc.
        replace (is_newline NL) with true by reflexivity.
        rewrite Hl. lia.
      + rewrite !has_triple_cons, !leading_cons, Hl, Ht.
        replace (is_newline NL) with true by reflexivity. reflexivity.
    - apply Nat.leb_gt in E.
      destruct (IH s) as [Hl Ht]; [simpl in Hlen; lia|].
      rewrite leading_cons in E.
      split.
      + rewrite !leading_cons. destruct (is_newline c); [|reflexivity].
        rewrite Hl. lia.
      + rewrite has_triple_cons, Ht, Hl, orb_false_r.
        destruct (is_newline c); [|reflexivity]. cbn [andb].
        apply Nat.leb_gt. lia. }
  apply (H (length s)). lia.
Qed.

(** A text without three newlines in a row is left as it is. *)
Lemma collapse_fixed (s : str) :
  has_triple_newline s = false -> re_sub newline_run_len [NL; NL] s = s.
Proof.
  induction s as [|c s IH]; intros Ht; [reflexivity|].
  rewrite collapse_cons. rewrite has_triple_cons in Ht.
  apply orb_false_iff in Ht as [Hlead Hs].
  destruct (3 <=? leading_newlines (c :: s))%nat eqn:E.
  - apply Nat.leb_le in E. rewrite leading_cons in E.
    destruct (is_newline c); [|lia]. cbn [andb] in Hlead.
    apply Nat.leb_gt in Hlead. lia.
  - now rewrite IH.
Qed.

Lemma leading_app (a b : str) :
  (leading_newlines a <= leading_newlines (a ++ b))%nat.
Proof.
  induction a as [|c a IH]; simpl; [unfold leading_newlines; simpl; lia|].
  rewrite !leading_cons. destruct (is_newline c); lia.
Qed.

Lemma has_triple_prefix (a b : str) :
  has_triple_newline (a ++ b) = false -> has_triple_newline a = false.
Proof.
  induction a as [|c a IH]; [reflexivity|].
  change ((c :: a) ++ b) with (c :: (a ++ b)).
  rewrite !has_triple_cons. intros H.
  apply orb_false_iff in H as [Hlead Hrest].
  rewrite (IH Hrest), orb_false_r.
  destruct (is_newline c); [|reflexivity]. cbn [andb] in *.
  apply Nat.leb_gt in Hlead. apply Nat.leb_gt.
  pose proof (leading_app a b). lia.
Qed.

Lemma has_triple_drop_while (p : char -> bool) (s : str) :
  has_triple_newline s = false ->
  has_triple_newline (drop_while p s) = false.
Proof.
  induction s as [|c s IH]; intros H; [reflexivity|].
  simpl. destruct (p c); [|exact H].
  rewrite has_triple_cons in H. apply orb_false_iff in H as [_ H]. auto.
Qed.

Lemma rstrip_prefix (s : str) : exists ws, s = rstrip s ++ ws.
Proof.
  unfold rstrip. exists (rev (take_while isspace (rev s))).
  rewrite <- rev_app_distr, take_drop_while, rev_involutive. reflexivity.
Qed.

Lemma has_triple_strip (s : str) :
  has_triple_newline s = false -> has_triple_newline (strip s) = false.
Proof.
  intros H. unfold strip.
  destruct (rstrip_prefix (lstrip s)) as (ws & Hws).
  apply (has_triple_prefix _ ws). rewrite <- Hws.
  now apply has_triple_drop_while.
Qed.

Lemma drop_while_head_false {A : Type} (p : A -> bool) (x : A) (l : list A) :
  p x = false -> drop_while p (x :: l) = x :: l.
Proof. intros H. simpl. now rewrite H. Qed.

Lemma strip_idempotent (s : str) : strip (strip s) = strip s.
Proof.
  destruct (strip s) as [|x l] eqn:E; [reflexivity|].
  assert (Hne : strip s <> []) by (rewrite E; discriminate).
  destruct (strip_trimmed s Hne) as [Hhd Hlast]. rewrite E in Hhd, Hlast.
  simpl in Hhd. unfold strip, rstrip, lstrip.
  rewrite (drop_while_head_false _ _ _ Hhd).
  destruct (exists_last (l := x :: l)) as (l' & a & Hl); [discriminate|].
  rewrite Hl in Hlast |- *. rewrite last_last in Hlast.
  rewrite rev_app_distr. simpl.
  rewrite Hlast. simpl. rewrite rev_involutive. reflexivity.
Qed.

Lemma replace_crlf_without_cr (s : str) :
  ~ In CR s -> replace_crlf s = s.
Proof.
  assert (H : forall n s, (length s <= n)%nat -> ~ In CR s ->
                          replace_crlf s = s).
  { clear s. induction n as [|n IH]; intros [|a [|b t]] Hlen Hcr;
      try reflexivity; try (simpl in Hlen; lia).
    rewrite replace_crlf_two.
    destruct (a =? CR)%N eqn:E.
    - apply N.eqb_eq in E. subst a. elim Hcr. now left.
    - simpl andb. cbv iota. rewrite (IH (b :: t)); [reflexivity| |].
      + simpl in *. lia.
      + intros Hin. apply Hcr. now right. }
  apply (H (length s)). lia.
Qed.

Lemma replace_cr_without_cr (s : str) : ~ In CR s -> replace_cr s = s.
Proof.
  unfold replace_cr. induction s as [|c s IH]; intros Hcr; [reflexivity|].
  simpl. destruct (c =? CR)%N eqn:E.
  - apply N.eqb_eq in E. subst c. elim Hcr. now left.
  - rewrite IH; [reflexivity|]. intros Hin. apply Hcr. now right.
Qed.

Lemma in_re_sub_aux (sep_len : str -> option nat) (repl : str) (x : char)
      (s : str) :
  forall k, In x (re_sub_aux sep_len repl k s) -> In x s \/ In x repl.
Proof.
  induction s as [|c s IH]; intros k H; [contradiction|].
  destruct k as [|k]; cbn [re_sub_aux] in H.
  - destruct (sep_len (c :: s)) as [[|k]|].
    + destruct H as [->|H]; [left; now left|].
      destruct (IH _ H); [left; now right|now right].
    + apply in_app_iff in H as [H|H]; [now right|].
      destruct (IH _ H); [left; now right|now right].
    + destruct H as [->|H]; [left; now left|].
      destruct (IH _ H); [left; now right|now right].
  - destruct (IH _ H); [left; now right|now right].
Qed.

(** X18.  A text without carriage return is normalised once and for
    all: the result holds no three newlines in a row, and normalising
    it again changes nothing. *)
Theorem normalize_idempotent_without_cr (text : str) :
  ~ In CR text ->
  has_triple_newline (_normalize_markdown text) = false
  /\ _normalize_markdown (_normalize_markdown text)
     = _normalize_markdown text.
Proof.
  intros Hcr.
  set (collapsed := re_sub newline_run_len [NL; NL] text).
  assert (Hcr1 : ~ In CR collapsed).
  { intros Hin. apply in_re_sub_aux in Hin as [Hin|Hin]; [auto|].
    simpl in Hin.
    destruct Hin as [Hin|[Hin|[]]]; discriminate. }
  assert (Hnorm : _normalize_markdown text = strip collapsed).
  { unfold _normalize_markdown. fold collapsed.
    rewrite (replace_crlf_without_cr _ Hcr1).
    rewrite (replace_cr_without_cr _ Hcr1). reflexivity. }
  assert (Htriple : has_triple_newline (strip collapsed) = false).
  { apply has_triple_strip. apply collapse_no_triple. }
  rewrite Hnorm. split; [exact Htriple|].
  assert (Hcr2 : ~ In CR (strip collapsed)).
  { intros Hin. apply Hcr1. now apply in_strip. }
  unfold _normalize_markdown at 1.
  rewrite (collapse_fixed _ Htriple).
  rewrite (replace_crlf_without_cr _ Hcr2).
  rewrite (replace_cr_without_cr _ Hcr2).
  apply strip_idempotent.
Qed.

Lemma normalize_idempotent_without_cr_witness :
  _normalize_markdown (_normalize_markdown doc_many_short_paragraphs)
  = _normalize_markdown doc_many_short_paragraphs.
Proof.
  apply (normalize_idempotent_without_cr doc_many_short_paragraphs).
  intros Hin. assert (H : existsb (fun c => (c =? CR)%N)
                                  doc_many_short_paragraphs = false)
    by (vm_compute; reflexivity).
  assert (Ht : existsb (fun c => (c =? CR)%N)
                       doc_many_short_paragraphs = true).
  { apply existsb_exists. exists CR. split; [exact Hin|reflexivity]. }
  congruence.
Defined.

(** ** Examples *)

Lemma example_scrape_wf : dict_wf example_scrape.
Proof.
  unfold dict_wf. simpl.
  repeat (constructor; [simpl; intuition discriminate|]). constructor.
Qed.

Lemma articles_to_upload_are_new_then_updated_witness :
  option_map (map fst) (get_articles_to_upload example_index example_scrape)
  = Some [py "c"; py "b"].
Proof.
  rewrite (articles_to_upload_are_new_then_updated
             example_index example_scrape example_scrape_wf).
  reflexivity.
Defined.

Lemma first_run_uploads_everything_witness :
  get_articles_to_upload [] example_scrape = Some example_scrape.
Proof.
  apply (first_run_uploads_everything example_scrape example_scrape_wf).
Defined.

Lemma rerun_after_index_update_uploads_nothing_witness :
  get_articles_to_upload (dict_update example_index example_scrape)
                         example_scrape
  = Some [].
Proof.
  apply (rerun_after_index_update_uploads_nothing
           example_index example_scrape example_scrape_wf).
  repeat constructor; discriminate.
Defined.

Lemma normalize_is_trimmed_without_cr_witness :
  isspace (hd SP (_normalize_markdown (py " a b "))) = false
  /\ isspace (last (_normalize_markdown (py " a b ")) SP) = false.
Proof.
  apply (normalize_is_trimmed_without_cr (py " a b ")).
  vm_compute. discriminate.
Defined.
